(** * The logging subsystem of [src/base/log.cpp]

    A shallow embedding of the global logger registry, the formatting entry
    point [log_log_impl] and the sinks defined in the file
    ([CLoggerCollection], [CLoggerAsync], [CFutureLogger]).

    Conventions.
    - [ILogger *] is an [option ptr]: [None] is [nullptr].
    - [char] arrays are lists of bytes whose length is the array's size; a
      read that scans past the end of the array is undefined behaviour.
    - A function that can hit a fatal assertion, or undefined behaviour,
      returns a [result]. *)

From stdpp Require Import base option list gmap strings.
From Stdlib Require Import Strings.Byte.

Set Default Proof Using "Type".

(** ** Outcomes of a call *)

Inductive result (A : Type) : Type :=
| Ok (a : A)             (* the call returned *)
| Fatal (msg : string)   (* [dbg_assert] failed: the process is stopped *)
| Undefined              (* null dereference or read outside an array *)
| OutOfFuel.             (* artefact of the embedding, see [log_log_impl] *)
Arguments Ok {A} a.
Arguments Fatal {A} msg.
Arguments Undefined {A}.
Arguments OutOfFuel {A}.

Definition result_bind {A B} (f : A → result B) (m : result A) : result B :=
  match m with
  | Ok a => f a
  | Fatal msg => Fatal msg
  | Undefined => Undefined
  | OutOfFuel => OutOfFuel
  end.

#[global] Instance result_mbind : MBind result := @result_bind.
#[global] Instance result_mret : MRet result := @Ok.

(** Running a list of calls one after the other, stopping at the first one
    that does not return. *)
Fixpoint run_each {A S} (f : A → S → result S) (xs : list A) (s : S) : result S :=
  match xs with
  | [] => Ok s
  | x :: xs' => s' ← f x s; run_each f xs' s'
  end.

(** Modelled from the spec: [dbg_assert] (base/system.h, not among the
    sources).  The spec calls a failed assertion "a fatal programming error,
    not a recoverable condition": the process stops with the message. *)
Definition dbg_assert (test : bool) (msg : string) : result unit :=
  if test then Ok () else Fatal msg.

(** ** C character arrays *)

Definition NUL : byte := x00.

#[global] Instance byte_eq_dec : EqDecision byte := Byte.byte_eq_dec.

(** The bytes of a string literal. *)
Definition bytes (s : string) : list byte := String.list_byte_of_string s.

(** A string argument free of embedded terminators. *)
Definition no_nul (s : list byte) : Prop := NUL ∉ s.

(** The C string stored in an array: the bytes before the first NUL.  There
    is no answer when the array holds no NUL: the scan leaves the array. *)
Fixpoint c_str (buf : list byte) : option (list byte) :=
  match buf with
  | [] => None
  | c :: rest => if Byte.eqb c NUL then Some [] else (c ::.) <$> c_str rest
  end.

(** Modelled from the spec: [str_length] (base/system.cpp, not among the
    sources), the length of the C string at the start of the array. *)
Definition str_length (buf : list byte) : result nat :=
  match c_str buf with
  | Some s => Ok (length s)
  | None => Undefined
  end.

(** Storing [src] into the array from index [off] on. *)
Definition poke (buf : list byte) (off : nat) (src : list byte) : list byte :=
  take off buf ++ src ++ drop (off + length src) buf.

(** A local array before its first write: indeterminate bytes. *)
Definition uninit (junk : nat → byte) (size : nat) : list byte :=
  junk <$> seq 0 size.

(** C99 [vsnprintf(buf + off, n, fmt, args)], where [text] is the expansion
    of [fmt] with [args]: at most [n - 1] bytes and always a terminator;
    nothing at all when [n] is zero. *)
Definition vsnprintf (buf : list byte) (off n : nat) (text : list byte) : list byte :=
  match n with
  | 0 => buf
  | S m => poke buf off (take m text ++ [NUL])
  end.

(** The Microsoft C runtime's [_vsnprintf]: the terminator is stored only
    when the expansion is shorter than [n]; otherwise the first [n] bytes
    are stored and nothing else. *)
Definition _vsnprintf (buf : list byte) (off n : nat) (text : list byte) : list byte :=
  if bool_decide (length text < n) then poke buf off (text ++ [NUL])
  else poke buf off (take n text).

(** Modelled from the spec: [str_copy] (base/system.cpp, not among the
    sources): "truncated to a fixed maximum length", the copy always
    terminated inside the destination. *)
Definition str_copy (dst src : list byte) (dst_size : nat) : list byte :=
  match dst_size with
  | 0 => dst
  | S m => poke dst 0 (take m src ++ [NUL])
  end.

(** Modelled from the spec: [str_format] (base/system.cpp, not among the
    sources), on the expansion [text] of its format: "rendered line is
    truncated to a fixed maximum length", always terminated. *)
Definition str_format (buffer : list byte) (buffer_size : nat) (text : list byte) : list byte :=
  match buffer_size with
  | 0 => buffer
  | S m => poke buffer 0 (take m text ++ [NUL])
  end.

(** Modelled from the spec: [str_timestamp_format] (base/system.cpp, not
    among the sources) writes the wall clock, rendered as [clock], as a
    terminated string of bounded length. *)
Definition str_timestamp_format (buffer : list byte) (buffer_size : nat) (clock : list byte) : list byte :=
  match buffer_size with
  | 0 => buffer
  | S m => poke buffer 0 (take m clock ++ [NUL])
  end.

(** ** The record handed to sinks *)

Inductive LEVEL := LEVEL_ERROR | LEVEL_WARN | LEVEL_INFO | LEVEL_DEBUG | LEVEL_TRACE.

Record LOG_COLOR := { r : byte; g : byte; b : byte }.

Record CLogMessage := {
  m_Level : LEVEL;
  m_HaveColor : bool;
  m_Color : LOG_COLOR;
  m_aTimestamp : list byte;
  m_aSystem : list byte;
  m_aLine : list byte;
  m_TimestampLength : nat;
  m_SystemLength : nat;
  m_LineLength : nat;
  m_LineMessageOffset : nat
}.

(** The bytes a sink writes: [m_LineLength] bytes of [m_aLine]. *)
Definition Line (m : CLogMessage) : list byte := take (m_LineLength m) (m_aLine m).

(** [CLogMessage::Message]: the line from [m_LineMessageOffset] on. *)
Definition Message (m : CLogMessage) : list byte :=
  drop (m_LineMessageOffset m) (Line m).

(** One invocation of the formatting entry point: its arguments, with
    [fmt_args] the expansion of [fmt] with [args], and what it reads from
    its environment: the wall clock as [str_timestamp_format] renders it and
    the indeterminate bytes of the stack slot of [Msg]. *)
Record LogCall := {
  level : LEVEL;
  have_color : bool;
  color : LOG_COLOR;
  sys : list byte;
  fmt_args : list byte;
  clock : list byte;
  junk : nat → byte
}.

(** ** Build configuration and external sinks *)

(** What [log.cpp] takes from the build: the platform macro, and the sizes
    of the arrays of [CLogMessage] (declared in logger.h, which is not among
    the sources). *)
Class Build := {
  CONF_FAMILY_WINDOWS : bool;
  TIMESTAMP_SIZE : nat;   (* sizeof(Msg.m_aTimestamp) *)
  SYSTEM_SIZE : nat;      (* sizeof(Msg.m_aSystem) *)
  LINE_SIZE : nat         (* sizeof(Msg.m_aLine) *)
}.

(** Every array has room for a terminator. *)
Definition well_sized (B : Build) : Prop :=
  0 < TIMESTAMP_SIZE ∧ 0 < SYSTEM_SIZE ∧ 0 < LINE_SIZE.

Definition ptr := nat.
Definition tid := nat.

(** Sinks that are not defined in [log.cpp] (the console, a test probe) are
    known by their address only.  A virtual call on one of them is an
    observable event; what such a sink does while it handles a record is
    summed up by the calls it makes back into the formatting entry point. *)
Class Backends := {
  relogs : ptr → CLogMessage → list LogCall
}.

Inductive Event :=
| EvLog (p : ptr) (m : CLogMessage)   (* p->Log(&m) *)
| EvFinish (p : ptr).                 (* p->GlobalFinish() *)

(** ** The global registry *)

(** [thread_local ILogger *scope_logger = nullptr;]
    [thread_local bool in_logger = false;] *)
Record TLS := { scope_logger : option ptr; in_logger : bool }.

Definition tls_init : TLS := {| scope_logger := None; in_logger := false |}.

Inductive ExitHook := hook_log_global_logger_finish.

Record State := {
  global_logger : option ptr;     (* std::atomic<ILogger *> global_logger = nullptr; *)
  threads : gmap tid TLS;         (* the thread-local variables of the threads that touched them *)
  exit_hooks : list ExitHook;     (* functions registered with atexit, latest first *)
  events : list Event             (* virtual calls made on external sinks, oldest first *)
}.

Definition initial : State :=
  {| global_logger := None; threads := ∅; exit_hooks := []; events := [] |}.

Definition tls (st : State) (t : tid) : TLS := default tls_init (threads st !! t).

Definition set_tls (t : tid) (v : TLS) (st : State) : State :=
  {| global_logger := global_logger st; threads := <[t := v]> (threads st);
     exit_hooks := exit_hooks st; events := events st |}.

Definition set_scope_logger (t : tid) (p : option ptr) (st : State) : State :=
  set_tls t {| scope_logger := p; in_logger := in_logger (tls st t) |} st.

Definition set_in_logger (t : tid) (v : bool) (st : State) : State :=
  set_tls t {| scope_logger := scope_logger (tls st t); in_logger := v |} st.

Definition set_global_logger (p : option ptr) (st : State) : State :=
  {| global_logger := p; threads := threads st;
     exit_hooks := exit_hooks st; events := events st |}.

Definition atexit (h : ExitHook) (st : State) : State :=
  {| global_logger := global_logger st; threads := threads st;
     exit_hooks := h :: exit_hooks st; events := events st |}.

Definition emit (e : Event) (st : State) : State :=
  {| global_logger := global_logger st; threads := threads st;
     exit_hooks := exit_hooks st; events := events st ++ [e] |}.

(** [cell.compare_exchange_strong(expected, desired)]: whether the exchange
    took place, and the cell afterwards. *)
Definition compare_exchange_strong (cell expected desired : option ptr) : bool * option ptr :=
  if bool_decide (cell = expected) then (true, desired) else (false, cell).

Definition log_set_global_logger (logger : option ptr) (st : State) : result State :=
  let null : option ptr := None in
  let '(exchanged, cell) := compare_exchange_strong (global_logger st) null logger in
  let st := set_global_logger cell st in
  _ ← (if negb exchanged
       then dbg_assert false "global logger has already been set and can only be set once"
       else Ok ());
  Ok (atexit hook_log_global_logger_finish st).

Definition log_global_logger_finish (st : State) : result State :=
  match global_logger st with
  | None => Undefined
  | Some p => Ok (emit (EvFinish p) st)
  end.

Definition log_get_scope_logger (t : tid) (st : State) : option ptr * State :=
  let st := if scope_logger (tls st t) is None
            then set_scope_logger t (global_logger st) st else st in
  (scope_logger (tls st t), st).

Definition log_set_scope_logger (t : tid) (logger : option ptr) (st : State) : State :=
  let st := set_scope_logger t logger st in
  if scope_logger (tls st t) is None
  then set_scope_logger t (global_logger st) st else st.

(** Normal process exit: the registered functions run, latest first. *)
Definition run_hook (h : ExitHook) (st : State) : result State :=
  match h with
  | hook_log_global_logger_finish => log_global_logger_finish st
  end.

Definition process_exit (st : State) : result State :=
  run_each run_hook (exit_hooks st) st.

(** ** The formatting entry point *)

(** Lines 84 to 111 of [log_log_impl]: filling the local [Msg]. *)
Definition build_message `{Build} (c : LogCall) : result CLogMessage :=
  let aTimestamp := str_timestamp_format (uninit (junk c) TIMESTAMP_SIZE) TIMESTAMP_SIZE (clock c) in
  TimestampLength ← str_length aTimestamp;
  let aSystem := str_copy (uninit (junk c) SYSTEM_SIZE) (sys c) SYSTEM_SIZE in
  SystemLength ← str_length aSystem;
  let aLine := str_format (uninit (junk c) LINE_SIZE) LINE_SIZE
                 (bytes "[" ++ take TimestampLength aTimestamp ++ bytes "][" ++
                  take SystemLength aSystem ++ bytes "]: ") in
  LineMessageOffset ← str_length aLine;
  let MessageSize := LINE_SIZE - LineMessageOffset in
  let aLine := if CONF_FAMILY_WINDOWS
               then _vsnprintf aLine LineMessageOffset MessageSize (fmt_args c)
               else vsnprintf aLine LineMessageOffset MessageSize (fmt_args c) in
  LineLength ← str_length aLine;
  Ok {| m_Level := level c; m_HaveColor := have_color c; m_Color := color c;
        m_aTimestamp := aTimestamp; m_aSystem := aSystem; m_aLine := aLine;
        m_TimestampLength := TimestampLength; m_SystemLength := SystemLength;
        m_LineLength := LineLength; m_LineMessageOffset := LineMessageOffset |}.

(** [log_log_impl] on thread [t].  The sink may log again while it handles
    the record, so the function is recursive through the sink; [fuel] bounds
    the depth of that recursion, and [log_log_impl_total] shows that a
    single unit is always enough. *)
Fixpoint log_log_impl `{Build} `{Backends} (fuel : nat) (t : tid) (c : LogCall)
    (st : State) : result State :=
  if in_logger (tls st t) then Ok st
  else
    match fuel with
    | 0 => OutOfFuel
    | S fuel' =>
      let st := set_in_logger t true st in
      let st := if scope_logger (tls st t) is None
                then set_scope_logger t (global_logger st) st else st in
      match scope_logger (tls st t) with
      | None => Ok (set_in_logger t false st)
      | Some logger =>
        Msg ← build_message c;
        (* scope_logger->Log(&Msg) *)
        st ← run_each (log_log_impl fuel' t) (relogs logger Msg) (emit (EvLog logger Msg) st);
        Ok (set_in_logger t false st)
      end
    end.

Definition log_log_v `{Build} `{Backends} fuel t (lvl : LEVEL) (s text clk : list byte) jk :=
  log_log_impl fuel t {| level := lvl; have_color := false;
                         color := {| r := x00; g := x00; b := x00 |};
                         sys := s; fmt_args := text; clock := clk; junk := jk |}.

Definition log_log_color_v `{Build} `{Backends} fuel t (lvl : LEVEL) (col : LOG_COLOR)
    (s text clk : list byte) jk :=
  log_log_impl fuel t {| level := lvl; have_color := true; color := col;
                         sys := s; fmt_args := text; clock := clk; junk := jk |}.

(** ** The sink interface *)

(** [ILogger]: the two virtual functions, acting on the state [W] of
    whatever stands behind the sinks (terminals, files, widgets). *)
Record ILogger (W : Type) := {
  Log : CLogMessage → W → W;
  GlobalFinish : W → W
}.
Arguments Log {W} _ _ _.
Arguments GlobalFinish {W} _ _.

(** The object behind each address. *)
Class Objects (W : Type) := deref : ptr → ILogger W.

(** What the sinks of [log.cpp] act on: the virtual calls they have made so
    far, oldest first, and the state behind the sinks they call. *)
Definition Sys (W : Type) : Type := list Event * W.

(** [p->Log(pMessage)] and [p->GlobalFinish()] through the vtable. *)
Definition call_Log `{Objects W} (p : ptr) (m : CLogMessage) (s : Sys W) : Sys W :=
  (s.1 ++ [EvLog p m], Log (deref p) m s.2).

Definition call_GlobalFinish `{Objects W} (p : ptr) (s : Sys W) : Sys W :=
  (s.1 ++ [EvFinish p], GlobalFinish (deref p) s.2).

(** The records a sink was handed, and the sinks that were drained. *)
Definition logged_to (p : ptr) (evs : list Event) : list CLogMessage :=
  omap (λ e, match e with
             | EvLog q m => if bool_decide (q = p) then Some m else None
             | EvFinish _ => None
             end) evs.

Definition finished (evs : list Event) : list ptr :=
  omap (λ e, match e with EvFinish q => Some q | EvLog _ _ => None end) evs.

(** ** CLoggerCollection *)

Record CLoggerCollection := { m_apLoggers : list ptr }.

Definition CLoggerCollection_Log `{Objects W} (this : CLoggerCollection)
    (pMessage : CLogMessage) (s : Sys W) : Sys W :=
  foldl (λ s pLogger, call_Log pLogger pMessage s) s (m_apLoggers this).

Definition CLoggerCollection_GlobalFinish `{Objects W} (this : CLoggerCollection)
    (s : Sys W) : Sys W :=
  foldl (λ s pLogger, call_GlobalFinish pLogger s) s (m_apLoggers this).

Definition log_logger_collection (loggers : list ptr) : CLoggerCollection :=
  {| m_apLoggers := loggers |}.

(** ** CFutureLogger *)

(** [std::vector]: the elements and the storage reserved for them. *)
Record vector (A : Type) := { data : list A; capacity : nat }.
Arguments data {A} _.
Arguments capacity {A} _.

Definition push_back {A} (x : A) (v : vector A) : vector A :=
  {| data := data v ++ [x];
     capacity := if bool_decide (length (data v) < capacity v) then capacity v
                 else Nat.max 1 (2 * capacity v) |}.

Definition clear {A} (v : vector A) : vector A :=
  {| data := []; capacity := capacity v |}.

Definition shrink_to_fit {A} (v : vector A) : vector A :=
  {| data := data v; capacity := length (data v) |}.

Record CFutureLogger := {
  m_pLogger : option ptr;             (* std::atomic<ILogger *> *)
  m_aPending : vector CLogMessage     (* guarded by m_PendingLock *)
}.

Definition CFutureLogger_new : CFutureLogger :=
  {| m_pLogger := None; m_aPending := {| data := []; capacity := 0 |} |}.

Definition CFutureLogger_Set `{Objects W} (pLogger : option ptr)
    (fs : CFutureLogger * Sys W) : result (CFutureLogger * Sys W) :=
  let '(this, s) := fs in
  let null : option ptr := None in
  (* m_PendingLock.lock() *)
  let pLoggerRaw := pLogger in
  let '(exchanged, cell) := compare_exchange_strong (m_pLogger this) null pLoggerRaw in
  let this := {| m_pLogger := cell; m_aPending := m_aPending this |} in
  _ ← (if negb exchanged
       then dbg_assert false "future logger has already been set and can only be set once"
       else Ok ());
  s ← run_each (λ Pending s, match pLoggerRaw with
                             | Some p => Ok (call_Log p Pending s)
                             | None => Undefined
                             end) (data (m_aPending this)) s;
  let this := {| m_pLogger := m_pLogger this; m_aPending := clear (m_aPending this) |} in
  let this := {| m_pLogger := m_pLogger this; m_aPending := shrink_to_fit (m_aPending this) |} in
  (* m_PendingLock.unlock() *)
  Ok (this, s).

Definition CFutureLogger_Log `{Objects W} (pMessage : CLogMessage)
    (fs : CFutureLogger * Sys W) : CFutureLogger * Sys W :=
  let '(this, s) := fs in
  match m_pLogger this with
  | Some pLogger => (this, call_Log pLogger pMessage s)
  | None =>
    (* m_PendingLock.lock(); ...; m_PendingLock.unlock() *)
    ({| m_pLogger := m_pLogger this; m_aPending := push_back pMessage (m_aPending this) |}, s)
  end.

Definition CFutureLogger_GlobalFinish `{Objects W}
    (fs : CFutureLogger * Sys W) : CFutureLogger * Sys W :=
  let '(this, s) := fs in
  match m_pLogger this with
  | Some pLogger => (this, call_GlobalFinish pLogger s)
  | None => (this, s)
  end.

(** The calls a client makes on a deferred sink, in program order. *)
Inductive FutureCall :=
| FLog (m : CLogMessage)
| FSet (pLogger : option ptr)
| FGlobalFinish.

Definition future_call `{Objects W} (c : FutureCall) (fs : CFutureLogger * Sys W)
    : result (CFutureLogger * Sys W) :=
  match c with
  | FLog m => Ok (CFutureLogger_Log m fs)
  | FSet p => CFutureLogger_Set p fs
  | FGlobalFinish => Ok (CFutureLogger_GlobalFinish fs)
  end.

(** ** CLoggerAsync *)

(** The calls a client makes on its [ASYNCIO] handle. *)
Inductive AioCall :=
| aio_lock
| aio_write_unlocked (buffer : list byte)
| aio_write_newline_unlocked
| aio_unlock
| aio_close
| aio_wait
| aio_free.

Record CLoggerAsync := {
  m_AnsiTruecolor : bool;
  m_Close : bool
}.

Definition ESC : byte := x1b.

(** [%d] applied to a [uint8_t] colour channel. *)
Definition digit (n : nat) : byte := default x30 (Byte.of_nat (48 + n)).

Definition format_d (v : byte) : list byte :=
  let n := Byte.to_nat v in
  if bool_decide (n < 10) then [digit n]
  else if bool_decide (n < 100) then [digit (n / 10); digit (n mod 10)]
  else [digit (n / 100); digit (n / 10 mod 10); digit (n mod 10)].

(** Reading [size] bytes from the start of an array. *)
Definition read_bytes (buffer : list byte) (size : nat) : result (list byte) :=
  if bool_decide (size ≤ length buffer) then Ok (take size buffer) else Undefined.

(** The expansion of ["\x1b[38;2;%d;%d;%dm"] with the three channels. *)
Definition truecolor_sequence (c : LOG_COLOR) : list byte :=
  ESC :: bytes "[38;2;" ++ format_d (r c) ++ bytes ";" ++
  format_d (g c) ++ bytes ";" ++ format_d (b c) ++ bytes "m".

(** ["\x1b[39m"]: back to the default foreground colour. *)
Definition default_foreground : list byte := ESC :: bytes "[39m".

(** The contents of [aAnsi] when it is written in [CLoggerAsync::Log]. *)
Definition ansi_buffer (jk : nat → byte) (pMessage : CLogMessage) : list byte :=
  let aAnsi := uninit jk 32 in
  if m_HaveColor pMessage
  then str_format aAnsi 32 (truecolor_sequence (m_Color pMessage))
  else str_copy aAnsi default_foreground 32.

(** [CLoggerAsync::Log]: the calls made on [m_pAio], in order. *)
Definition CLoggerAsync_Log (jk : nat → byte) (this : CLoggerAsync)
    (pMessage : CLogMessage) : result (list AioCall) :=
  ansi ← (if m_AnsiTruecolor this
          then let aAnsi := ansi_buffer jk pMessage in
               n ← str_length aAnsi;
               text ← read_bytes aAnsi n;
               Ok [aio_write_unlocked text]
          else Ok []);
  line ← read_bytes (m_aLine pMessage) (m_LineLength pMessage);
  Ok ([aio_lock] ++ ansi ++
      [aio_write_unlocked line; aio_write_newline_unlocked; aio_unlock]).

(** [CLoggerAsync::GlobalFinish] and the destructor. *)
Definition CLoggerAsync_GlobalFinish (this : CLoggerAsync) : list AioCall :=
  (if m_Close this then [aio_close] else []) ++ [aio_wait].

Definition CLoggerAsync_destroy (this : CLoggerAsync) : list AioCall :=
  (if m_Close this then [aio_close] else []) ++ [aio_wait; aio_free].

Definition log_logger_file : CLoggerAsync :=
  {| m_AnsiTruecolor := false; m_Close := true |}.

(** [log_logger_stdout] off Windows; [no_color] is whether the environment
    has a variable NO_COLOR. *)
Definition log_logger_stdout (no_color : bool) : CLoggerAsync :=
  {| m_AnsiTruecolor := negb no_color; m_Close := false |}.

(** Modelled from the spec: the [ASYNCIO] object and its functions
    (base/system.cpp, not among the sources).  "emit appends the rendered
    bytes [...] to an internal write queue under a lock and returns without
    waiting for the write to complete; a dedicated worker drains the queue
    and performs the blocking write.  finish()/destruction: optionally
    closes the underlying stream, then blocks until the worker has drained
    all queued bytes". *)
Record ASYNCIO := {
  aio_holder : option tid;     (* the thread inside aio_lock .. aio_unlock *)
  aio_queue : list byte;       (* appended by clients, not yet written *)
  aio_stream : list byte;      (* what the worker has written to the stream *)
  aio_closing : bool;          (* aio_close was called *)
  aio_freed : bool
}.

Definition aio_new (file : list byte) : ASYNCIO :=
  {| aio_holder := None; aio_queue := []; aio_stream := file;
     aio_closing := false; aio_freed := false |}.

Definition newline : list byte := [x0a].

Definition aio_append (buffer : list byte) (a : ASYNCIO) : ASYNCIO :=
  {| aio_holder := aio_holder a; aio_queue := aio_queue a ++ buffer;
     aio_stream := aio_stream a; aio_closing := aio_closing a;
     aio_freed := aio_freed a |}.

Definition aio_set_holder (h : option tid) (a : ASYNCIO) : ASYNCIO :=
  {| aio_holder := h; aio_queue := aio_queue a; aio_stream := aio_stream a;
     aio_closing := aio_closing a; aio_freed := aio_freed a |}.

(** One call by thread [t]; [None] while the call cannot return yet (the
    lock is taken, or the worker has not drained the queue). *)
Definition aio_exec (t : tid) (c : AioCall) (a : ASYNCIO) : option ASYNCIO :=
  match c with
  | aio_lock => if aio_holder a is None then Some (aio_set_holder (Some t) a) else None
  | aio_unlock => Some (aio_set_holder None a)
  | aio_write_unlocked buffer => Some (aio_append buffer a)
  | aio_write_newline_unlocked => Some (aio_append newline a)
  | aio_close =>
    Some {| aio_holder := aio_holder a; aio_queue := aio_queue a;
            aio_stream := aio_stream a; aio_closing := true; aio_freed := aio_freed a |}
  | aio_wait => if aio_queue a is [] then Some a else None
  | aio_free =>
    Some {| aio_holder := aio_holder a; aio_queue := aio_queue a;
            aio_stream := aio_stream a; aio_closing := aio_closing a; aio_freed := true |}
  end.

(** The worker writes the first [n] queued bytes to the stream. *)
Definition aio_worker (n : nat) (a : ASYNCIO) : ASYNCIO :=
  {| aio_holder := aio_holder a; aio_queue := drop n (aio_queue a);
     aio_stream := aio_stream a ++ take n (aio_queue a);
     aio_closing := aio_closing a; aio_freed := aio_freed a |}.

(** A thread running its calls with nothing else scheduled in between. *)
Fixpoint aio_run (t : tid) (calls : list AioCall) (a : ASYNCIO) : option ASYNCIO :=
  match calls with
  | [] => Some a
  | c :: calls' => a' ← aio_exec t c a; aio_run t calls' a'
  end.

(** The bytes one record adds to the stream. *)
Definition ansi_prefix (this : CLoggerAsync) (m : CLogMessage) : list byte :=
  if m_AnsiTruecolor this then
    if m_HaveColor m then truecolor_sequence (m_Color m) else default_foreground
  else [].

Definition rendered (this : CLoggerAsync) (m : CLogMessage) : list byte :=
  ansi_prefix this m ++ Line m ++ newline.

(** The layout with the truecolor sequence as the only prefix there is. *)
Definition truecolor_only_layout (this : CLoggerAsync) (m : CLogMessage) : list byte :=
  (if m_AnsiTruecolor this then truecolor_sequence (m_Color m) else []) ++
  Line m ++ newline.

(** ** Clients of the registry *)

(** The sink a call on thread [t] is meant for: the thread's scope logger if
    one is set, else the global logger. *)
Definition effective_sink (t : tid) (st : State) : option ptr :=
  match scope_logger (tls st t) with
  | Some p => Some p
  | None => global_logger st
  end.

(** The calls the rest of the program makes on the registry. *)
Inductive Op :=
| OpSetGlobal (logger : option ptr)
| OpGetScope (t : tid)
| OpSetScope (t : tid) (logger : option ptr)
| OpLog (t : tid) (c : LogCall).

Definition op_run `{Build} `{Backends} (o : Op) (st : State) : result State :=
  match o with
  | OpSetGlobal logger => log_set_global_logger logger st
  | OpGetScope t => Ok (log_get_scope_logger t st).2
  | OpSetScope t logger => Ok (log_set_scope_logger t logger st)
  | OpLog t c => log_log_impl 1 t c st
  end.

(** Callers hand [log_set_global_logger] a logger they own, not [nullptr]. *)
Definition passes_logger (o : Op) : Prop :=
  match o with
  | OpSetGlobal None => False
  | _ => True
  end.

#[global] Instance passes_logger_dec o : Decision (passes_logger o).
Proof. destruct o as [[?|]| | |]; simpl; apply _. Defined.

(** ** Sample builds, sinks and calls *)

(** The array sizes of logger.h as the project ships it. *)
Definition build_posix : Build :=
  {| CONF_FAMILY_WINDOWS := false; TIMESTAMP_SIZE := 80; SYSTEM_SIZE := 32; LINE_SIZE := 4096 |}.

Definition build_windows : Build :=
  {| CONF_FAMILY_WINDOWS := true; TIMESTAMP_SIZE := 80; SYSTEM_SIZE := 32; LINE_SIZE := 4096 |}.

(** A small layout, to see truncation at work. *)
Definition build_small : Build :=
  {| CONF_FAMILY_WINDOWS := false; TIMESTAMP_SIZE := 20; SYSTEM_SIZE := 5; LINE_SIZE := 40 |}.

Definition sample_call (s text : string) : LogCall :=
  {| level := LEVEL_INFO; have_color := false;
     color := {| r := x00; g := x00; b := x00 |};
     sys := bytes s; fmt_args := bytes text;
     clock := bytes "2022-04-22 10:00:00"; junk := λ _, xaa |}.

(** Sinks that never log. *)
Definition quiet : Backends := {| relogs := λ _ _, [] |}.

(** Sinks that report every record they handle through the entry point,
    twice. *)
Definition chatty : Backends :=
  {| relogs := λ _ _, [sample_call "sink" "handling a record";
                       sample_call "sink" "still handling it"] |}.

(** A message longer than the line array. *)
Definition long_text : list byte := replicate 5000 "A"%byte.

Definition long_call : LogCall :=
  {| level := LEVEL_INFO; have_color := false;
     color := {| r := x00; g := x00; b := x00 |};
     sys := bytes "test"; fmt_args := long_text;
     clock := bytes "2022-04-22 10:00:00"; junk := λ _, xaa |}.

(** A thread-less state with sink [7] published. *)
Definition published : State :=
  {| global_logger := Some 7; threads := ∅;
     exit_hooks := [hook_log_global_logger_finish]; events := [] |}.

(** A start-up sequence: a line logged before any logger exists, the
    logger published, then three threads at work. *)
Definition sample_ops : list Op :=
  [OpLog 0 (sample_call "test" "early"); OpSetGlobal (Some 7);
   OpLog 0 (sample_call "test" "hello"); OpSetScope 1 (Some 9);
   OpSetScope 1 None; OpGetScope 2].

(** The record [log_log] builds for the call [sample_call "test" "hello"]
    on the small layout. *)
Definition sample_record : CLogMessage :=
  {| m_Level := LEVEL_INFO; m_HaveColor := false;
     m_Color := {| r := x00; g := x00; b := x00 |};
     m_aTimestamp := bytes "2022-04-22 10:00:00" ++ [NUL];
     m_aSystem := bytes "test" ++ [NUL];
     m_aLine := bytes "[2022-04-22 10:00:00][test]: hello" ++ NUL :: replicate 5 xaa;
     m_TimestampLength := 19; m_SystemLength := 4;
     m_LineLength := 34; m_LineMessageOffset := 29 |}.

(** The same line in orange, as [log_log_color] would build it. *)
Definition orange_record : CLogMessage :=
  {| m_Level := LEVEL_INFO; m_HaveColor := true;
     m_Color := {| r := xff; g := x80; b := x07 |};
     m_aTimestamp := bytes "2022-04-22 10:00:00" ++ [NUL];
     m_aSystem := bytes "test" ++ [NUL];
     m_aLine := bytes "[2022-04-22 10:00:00][test]: hello" ++ NUL :: replicate 5 xaa;
     m_TimestampLength := 19; m_SystemLength := 4;
     m_LineLength := 34; m_LineMessageOffset := 29 |}.

(** ** Threads sharing one asynchronous sink *)

(** The calls a thread makes on the sink. *)
Inductive Work :=
| DoLog (m : CLogMessage)
| DoGlobalFinish
| DoDestroy.

Definition calls_of (jk : nat → byte) (this : CLoggerAsync) (w : Work) : result (list AioCall) :=
  match w with
  | DoLog m => CLoggerAsync_Log jk this m
  | DoGlobalFinish => Ok (CLoggerAsync_GlobalFinish this)
  | DoDestroy => Ok (CLoggerAsync_destroy this)
  end.

(** The bytes a call puts on the queue. *)
Definition payload_of (c : AioCall) : list byte :=
  match c with
  | aio_write_unlocked buffer => buffer
  | aio_write_newline_unlocked => newline
  | _ => []
  end.

Definition payload (cs : list AioCall) : list byte := concat (payload_of <$> cs).

(** The sink with its clients.  A client is the list of calls it has not
    returned from yet, the first being the one it is in, and the number of
    [ASYNCIO] calls it has made inside that one.  [returned] keeps the calls
    that returned, in the order they returned. *)
Record Machine := {
  aio : ASYNCIO;
  clients : gmap tid (nat * list Work);
  returned : list (tid * Work)
}.

Definition boot (file : list byte) (work : gmap tid (list Work)) : Machine :=
  {| aio := aio_new file; clients := (λ ws, (0, ws)) <$> work; returned := [] |}.

(** Who runs next: a client, for one [ASYNCIO] call, or the worker, for the
    first [n] bytes of the queue. *)
Inductive Pick :=
| Run (t : tid)
| Worker (n : nat).

Definition todo (M : Machine) (t : tid) : list Work :=
  match clients M !! t with
  | Some (_, ws) => ws
  | None => []
  end.

(** The [ASYNCIO] call thread [t] is about to make. *)
Definition next_call (jk : nat → byte) (this : CLoggerAsync) (M : Machine) (t : tid)
    : option AioCall :=
  match clients M !! t with
  | Some (pc, w :: _) =>
    match calls_of jk this w with
    | Ok cs => cs !! pc
    | _ => None
    end
  | _ => None
  end.

(** One step; [None] when the pick cannot run: the thread has nothing left
    to do, its call blocks, or the call reads out of bounds. *)
Definition step (jk : nat → byte) (this : CLoggerAsync) (p : Pick) (M : Machine)
    : option Machine :=
  match p with
  | Worker n =>
    Some {| aio := aio_worker n (aio M); clients := clients M; returned := returned M |}
  | Run t =>
    match clients M !! t with
    | Some (pc, w :: ws) =>
      match calls_of jk this w with
      | Ok cs =>
        c ← cs !! pc;
        a' ← aio_exec t c (aio M);
        if bool_decide (S pc = length cs)
        then Some {| aio := a'; clients := <[t := (0, ws)]> (clients M);
                     returned := returned M ++ [(t, w)] |}
        else Some {| aio := a'; clients := <[t := (S pc, w :: ws)]> (clients M);
                     returned := returned M |}
      | _ => None
      end
    | _ => None
    end
  end.

Fixpoint exec (jk : nat → byte) (this : CLoggerAsync) (sched : list Pick) (M : Machine)
    : option Machine :=
  match sched with
  | [] => Some M
  | p :: sched' => M' ← step jk this p M; exec jk this sched' M'
  end.

(** The records whose [Log] has returned, and the calls of one thread that
    have returned. *)
Definition logs (h : list (tid * Work)) : list CLogMessage :=
  omap (λ tw, match tw.2 with DoLog m => Some m | _ => None end) h.

Definition by_thread (t : tid) (h : list (tid * Work)) : list Work :=
  omap (λ tw, if bool_decide (tw.1 = t) then Some tw.2 else None) h.

(** The bytes the thread inside the lock has queued so far. *)
Definition partial_line (jk : nat → byte) (this : CLoggerAsync) (M : Machine) : list byte :=
  match aio_holder (aio M) with
  | Some t =>
    match clients M !! t with
    | Some (pc, w :: _) =>
      match calls_of jk this w with
      | Ok cs => payload (take pc cs)
      | _ => []
      end
    | _ => []
    end
  | None => []
  end.

(** Two threads logging to one terminal; thread 1 drains it at the end. *)
Definition sample_work : gmap tid (list Work) :=
  {[ 1 := [DoLog sample_record; DoLog orange_record; DoGlobalFinish];
     2 := [DoLog orange_record; DoLog sample_record] ]}.

Definition sample_schedule : list Pick :=
  [Run 1; Run 1; Run 1; Worker 3; Run 1; Run 1;
   Run 2; Run 2; Worker 60; Run 2; Run 2; Run 2;
   Run 1; Run 1; Run 1; Run 1; Run 1;
   Run 2; Run 2; Run 2; Run 2; Run 2;
   Worker 500].

Definition is_write (c : AioCall) : bool :=
  match c with
  | aio_write_unlocked _ | aio_write_newline_unlocked => true
  | _ => false
  end.

Definition is_passive (c : AioCall) : bool :=
  match c with
  | aio_close | aio_wait | aio_free => true
  | _ => false
  end.

(** What holds of the machine however its threads are scheduled: every
    thread's returned calls followed by its pending ones are the calls it
    was given; the bytes written and queued are the lines of the [Log] calls
    that returned, in the order they returned, followed by what the thread
    inside the lock has queued; and only that thread is part-way through a
    [Log] call. *)
Definition consistent (jk : nat → byte) (this : CLoggerAsync) (file : list byte)
    (work : gmap tid (list Work)) (M : Machine) : Prop :=
  (∀ t, by_thread t (returned M) ++ todo M t = default [] (work !! t))
  ∧ aio_stream (aio M) ++ aio_queue (aio M)
    = file ++ concat (rendered this <$> logs (returned M)) ++ partial_line jk this M
  ∧ (∀ t pc m ws, clients M !! t = Some (pc, DoLog m :: ws) →
       aio_holder (aio M) ≠ Some t → pc = 0)
  ∧ (∀ t, aio_holder (aio M) = Some t →
       ∃ pc m ws cs, clients M !! t = Some (pc, DoLog m :: ws)
                     ∧ calls_of jk this (DoLog m) = Ok cs ∧ 0 < pc < length cs).

Definition sample_junk : nat → byte := λ _, xaa.

(** A second run, against the file sink: thread 1 logs one line and destroys
    the sink while thread 2 is logging another. *)
Definition closing_work : gmap tid (list Work) :=
  {[ 1 := [DoLog sample_record; DoDestroy]; 2 := [DoLog orange_record] ]}.

Definition closing_schedule : list Pick :=
  [Run 1; Run 1; Run 1; Run 1].

Definition closing_rest : list Pick :=
  [Run 1; Run 2; Worker 100; Run 1; Run 2; Run 1].

(** ** The Windows console palette *)

(** [color_hsv_to_windows_console_color], from its fourth line on: [h], [s]
    and [v] are the [int]s that its first three lines get from the three
    channels of [Hsv], scaled by 255. *)
Definition color_hsv_to_windows_console_color (h s v : Z) : Z :=
  if bool_decide (0 ≤ s ∧ s ≤ 10)%Z then
    if bool_decide (v ≤ 150)%Z then 8%Z else 15%Z
  else if bool_decide (0 ≤ h ∧ h < 15)%Z then 12%Z
  else if bool_decide (15 ≤ h ∧ h < 30)%Z then 6%Z
  else if bool_decide (30 ≤ h ∧ h < 60)%Z then 14%Z
  else if bool_decide (60 ≤ h ∧ h < 110)%Z then 10%Z
  else if bool_decide (110 ≤ h ∧ h < 140)%Z then 11%Z
  else if bool_decide (140 ≤ h ∧ h < 170)%Z then 9%Z
  else if bool_decide (170 ≤ h ∧ h < 195)%Z then 5%Z
  else if bool_decide (195 ≤ h ∧ h < 240)%Z then 13%Z
  else if bool_decide (240 ≤ h)%Z then 12%Z
  else 15%Z.

(** * Properties *)

(** ** C strings *)

Lemma no_nul_cons c s : no_nul (c :: s) ↔ c ≠ NUL ∧ no_nul s.
Proof.
  unfold no_nul. rewrite not_elem_of_cons.
  split; intros [Hc Hs]; split; auto.
Qed.

Lemma no_nul_app s1 s2 : no_nul (s1 ++ s2) ↔ no_nul s1 ∧ no_nul s2.
Proof. unfold no_nul. rewrite not_elem_of_app. done. Qed.

Lemma no_nul_take n s : no_nul s → no_nul (take n s).
Proof. unfold no_nul. intros Hs Hin. apply Hs. by apply (subseteq_take n s). Qed.

Lemma eqb_NUL c : Byte.eqb c NUL = bool_decide (c = NUL).
Proof.
  case_bool_decide as Hc.
  - by apply Byte.byte_dec_lb.
  - destruct (Byte.eqb c NUL) eqn:E; [|done]. by apply Byte.byte_dec_bl in E.
Qed.

(** A terminator after [s] ends the scan there. *)
Lemma c_str_terminated s rest : no_nul s → c_str (s ++ NUL :: rest) = Some s.
Proof.
  induction s as [|c s IH]; intros Hs; [done|].
  apply no_nul_cons in Hs as [Hc Hs]. cbn [app c_str].
  rewrite eqb_NUL, bool_decide_eq_false_2 by done.
  by rewrite IH.
Qed.

(** No terminator in the array: the scan runs off its end. *)
Lemma c_str_unterminated buf : no_nul buf → c_str buf = None.
Proof.
  induction buf as [|c buf IH]; intros Hs; [done|].
  apply no_nul_cons in Hs as [Hc Hs]. cbn [c_str].
  rewrite eqb_NUL, bool_decide_eq_false_2 by done.
  by rewrite IH.
Qed.

Lemma c_str_Some buf s :
  c_str buf = Some s → no_nul s ∧ ∃ rest, buf = s ++ NUL :: rest.
Proof.
  revert s. induction buf as [|c buf IH]; intros s; [done|]. cbn [c_str].
  rewrite eqb_NUL. case_bool_decide as Hc.
  - intros [= <-]. subst c. split; [apply not_elem_of_nil|]. by exists buf.
  - destruct (c_str buf) as [s'|] eqn:E; [|done]. intros [= <-].
    destruct (IH s' eq_refl) as [Hs' [rest ->]].
    split; [by apply no_nul_cons|]. by exists rest.
Qed.

Lemma str_length_terminated s rest :
  no_nul s → str_length (s ++ NUL :: rest) = Ok (length s).
Proof. intros Hs. unfold str_length. by rewrite c_str_terminated. Qed.

Lemma str_length_unterminated buf : no_nul buf → str_length buf = Undefined.
Proof. intros Hs. unfold str_length. by rewrite c_str_unterminated. Qed.

Lemma length_uninit jk n : length (uninit jk n) = n.
Proof. unfold uninit. by rewrite length_fmap, length_seq. Qed.

Lemma poke_0 buf src : poke buf 0 src = src ++ drop (length src) buf.
Proof. done. Qed.

Lemma length_poke buf off src :
  off + length src ≤ length buf → length (poke buf off src) = length buf.
Proof.
  intros Hle. unfold poke.
  rewrite !length_app, length_take, length_drop. lia.
Qed.

(** A bounded, terminated copy at the start of an array of [S m] bytes. *)
Lemma bounded_copy buf m text :
  length buf = S m →
  ∃ rest, poke buf 0 (take m text ++ [NUL]) = take m text ++ NUL :: rest
          ∧ length (take m text) + S (length rest) = S m.
Proof.
  intros Hlen. exists (drop (length (take m text ++ [NUL])) buf).
  rewrite poke_0, <- app_assoc. split; [done|].
  rewrite length_drop, length_app, length_take. simpl. lia.
Qed.

(** ** Building the record *)

Lemma bind_Ok {A B} (x : A) (f : A → result B) : (Ok x ≫= f) = f x.
Proof. done. Qed.

(** What a bounded, terminated write at offset [off] leaves in the array. *)
Lemma poke_terminated buf off k text :
  length buf = off + S k →
  ∃ rest, poke buf off (take k text ++ [NUL]) = take off buf ++ take k text ++ NUL :: rest
          ∧ off + length (take k text) + S (length rest) = length buf.
Proof.
  intros Hlen. exists (drop (off + length (take k text ++ [NUL])) buf).
  unfold poke. rewrite <- (app_assoc (take k text)). split; [done|].
  rewrite length_drop, length_app, length_take. simpl. lia.
Qed.

Lemma no_nul_bytes_open : no_nul (bytes "[").
Proof. unfold no_nul. by apply (bool_decide_unpack _). Qed.

Lemma no_nul_bytes_mid : no_nul (bytes "][").
Proof. unfold no_nul. by apply (bool_decide_unpack _). Qed.

Lemma no_nul_bytes_close : no_nul (bytes "]: ").
Proof. unfold no_nul. by apply (bool_decide_unpack _). Qed.

(** The line prefix, before truncation to the line array. *)
Lemma no_nul_prefix ts tag :
  no_nul ts → no_nul tag →
  no_nul (bytes "[" ++ ts ++ bytes "][" ++ tag ++ bytes "]: ").
Proof.
  intros Hts Htag. rewrite !no_nul_app.
  auto using no_nul_bytes_open, no_nul_bytes_mid, no_nul_bytes_close.
Qed.

(** The first three arrays of the record, on every build: the timestamp and
    the tag are cut to their arrays, the prefix to the line array, and each
    is terminated. *)
Lemma build_message_prefix `{B : Build} c :
  well_sized B → no_nul (clock c) → no_nul (sys c) →
  let ts := take (TIMESTAMP_SIZE - 1) (clock c) in
  let tag := take (SYSTEM_SIZE - 1) (sys c) in
  let prefix := take (LINE_SIZE - 1) (bytes "[" ++ ts ++ bytes "][" ++ tag ++ bytes "]: ") in
  ∃ aTimestamp aSystem rest,
    length aTimestamp = TIMESTAMP_SIZE ∧ c_str aTimestamp = Some ts ∧
    length aSystem = SYSTEM_SIZE ∧ c_str aSystem = Some tag ∧
    length prefix + S (length rest) = LINE_SIZE ∧
    build_message c =
      (let aLine := prefix ++ NUL :: rest in
       let LineMessageOffset := length prefix in
       let MessageSize := LINE_SIZE - LineMessageOffset in
       let aLine := if CONF_FAMILY_WINDOWS
                    then _vsnprintf aLine LineMessageOffset MessageSize (fmt_args c)
                    else vsnprintf aLine LineMessageOffset MessageSize (fmt_args c) in
       LineLength ← str_length aLine;
       Ok {| m_Level := level c; m_HaveColor := have_color c; m_Color := color c;
             m_aTimestamp := aTimestamp; m_aSystem := aSystem; m_aLine := aLine;
             m_TimestampLength := length ts; m_SystemLength := length tag;
             m_LineLength := LineLength; m_LineMessageOffset := length prefix |}).
Proof.
  intros (Hts & Hsys & Hline) Hclock Htag. cbv zeta.
  unfold build_message.
  destruct B as [win tsz ssz lsz]. cbn [CONF_FAMILY_WINDOWS TIMESTAMP_SIZE SYSTEM_SIZE LINE_SIZE] in *.
  destruct tsz as [|tm]; [lia|]. destruct ssz as [|sm]; [lia|]. destruct lsz as [|lm]; [lia|].
  rewrite !Nat.sub_succ, !Nat.sub_0_r.
  set (ts := take tm (clock c)). set (tag := take sm (sys c)).
  cbn [str_timestamp_format str_copy str_format].
  destruct (bounded_copy (uninit (junk c) (S tm)) tm (clock c)) as (r1 & E1 & L1);
    [apply length_uninit|].
  destruct (bounded_copy (uninit (junk c) (S sm)) sm (sys c)) as (r2 & E2 & L2);
    [apply length_uninit|].
  rewrite E1, E2. fold ts tag. fold ts in L1. fold tag in L2.
  assert (Hnts : no_nul ts) by by apply no_nul_take.
  assert (Hntag : no_nul tag) by by apply no_nul_take.
  rewrite (str_length_terminated ts r1), bind_Ok by done.
  rewrite (str_length_terminated tag r2), bind_Ok by done.
  rewrite !take_app_length.
  destruct (bounded_copy (uninit (junk c) (S lm)) lm
              (bytes "[" ++ ts ++ bytes "][" ++ tag ++ bytes "]: ")) as (r3 & E3 & L3);
    [apply length_uninit|].
  rewrite E3.
  set (prefix := take lm (bytes "[" ++ ts ++ bytes "][" ++ tag ++ bytes "]: ")) in *.
  assert (Hnp : no_nul prefix) by by apply no_nul_take, no_nul_prefix.
  rewrite (str_length_terminated prefix r3), bind_Ok by done.
  exists (ts ++ NUL :: r1), (tag ++ NUL :: r2), r3.
  rewrite !c_str_terminated by done.
  rewrite !length_app. simpl. repeat split; try done; lia.
Qed.

(** Off Windows the record is always built: the message is cut to what is
    left of the line array, the terminator stays inside the array and the
    recorded length stops before it. *)
Lemma build_message_posix `{B : Build} c :
  well_sized B → CONF_FAMILY_WINDOWS = false →
  no_nul (clock c) → no_nul (sys c) → no_nul (fmt_args c) →
  let ts := take (TIMESTAMP_SIZE - 1) (clock c) in
  let tag := take (SYSTEM_SIZE - 1) (sys c) in
  let prefix := take (LINE_SIZE - 1) (bytes "[" ++ ts ++ bytes "][" ++ tag ++ bytes "]: ") in
  let body := take (LINE_SIZE - 1 - length prefix) (fmt_args c) in
  ∃ Msg, build_message c = Ok Msg
    ∧ m_Level Msg = level c ∧ m_HaveColor Msg = have_color c ∧ m_Color Msg = color c
    ∧ length (m_aSystem Msg) = SYSTEM_SIZE ∧ c_str (m_aSystem Msg) = Some tag
    ∧ m_SystemLength Msg = length tag
    ∧ length (m_aLine Msg) = LINE_SIZE ∧ c_str (m_aLine Msg) = Some (prefix ++ body)
    ∧ m_LineMessageOffset Msg = length prefix
    ∧ m_LineLength Msg = length (prefix ++ body) ∧ m_LineLength Msg < LINE_SIZE
    ∧ Line Msg = prefix ++ body ∧ Message Msg = body.
Proof.
  intros Hsized Hwin Hclock Hsys Htext. cbv zeta.
  destruct (build_message_prefix c Hsized Hclock Hsys)
    as (aT & aS & rest & LT & ET & LS & ES & Lrest & ->).
  cbv zeta in Lrest |- *. rewrite Hwin.
  set (ts := take (TIMESTAMP_SIZE - 1) (clock c)) in *.
  set (tag := take (SYSTEM_SIZE - 1) (sys c)) in *.
  set (prefix := take (LINE_SIZE - 1) _) in *.
  assert (Hnp : no_nul prefix).
  { apply no_nul_take, no_nul_prefix; by apply no_nul_take. }
  replace (LINE_SIZE - length prefix) with (S (length rest)) by lia.
  replace (LINE_SIZE - 1 - length prefix) with (length rest) by lia.
  set (body := take (length rest) (fmt_args c)).
  cbn [vsnprintf].
  destruct (poke_terminated (prefix ++ NUL :: rest) (length prefix) (length rest) (fmt_args c))
    as (rest' & E & L).
  { rewrite length_app. simpl. lia. }
  rewrite E, take_app_length. fold body. fold body in L.
  rewrite length_app in L. simpl in L.
  assert (Hnb : no_nul (prefix ++ body)).
  { apply no_nul_app. split; [done|]. by apply no_nul_take. }
  rewrite (app_assoc prefix body).
  rewrite str_length_terminated, bind_Ok by done.
  eexists. split; [reflexivity|]. unfold Line, Message, Line. cbn.
  rewrite c_str_terminated by done.
  rewrite take_app_length, drop_app_length.
  rewrite !length_app in *. simpl. repeat split; try done; lia.
Qed.

(** On Windows a message that does not fit is stored without a terminator,
    and the length of the line is then read past the end of [m_aLine]. *)
Lemma build_message_windows_overrun `{B : Build} c :
  well_sized B → CONF_FAMILY_WINDOWS = true →
  no_nul (clock c) → no_nul (sys c) → no_nul (fmt_args c) →
  let ts := take (TIMESTAMP_SIZE - 1) (clock c) in
  let tag := take (SYSTEM_SIZE - 1) (sys c) in
  let prefix := take (LINE_SIZE - 1) (bytes "[" ++ ts ++ bytes "][" ++ tag ++ bytes "]: ") in
  LINE_SIZE - length prefix ≤ length (fmt_args c) →
  build_message c = Undefined.
Proof.
  intros Hsized Hwin Hclock Hsys Htext. cbv zeta. intros Hlong.
  destruct (build_message_prefix c Hsized Hclock Hsys)
    as (aT & aS & rest & LT & ET & LS & ES & Lrest & ->).
  cbv zeta in Lrest |- *. rewrite Hwin.
  set (prefix := take (LINE_SIZE - 1) _) in *.
  assert (Hnp : no_nul prefix).
  { apply no_nul_take, no_nul_prefix; by apply no_nul_take. }
  unfold _vsnprintf. rewrite bool_decide_eq_false_2 by lia.
  unfold poke. rewrite take_app_length.
  rewrite drop_ge by (rewrite length_app, length_take; simpl; lia).
  rewrite str_length_unterminated; [done|].
  rewrite !no_nul_app. repeat split; [done| |apply not_elem_of_nil].
  by apply no_nul_take.
Qed.

(** ** Thread-local storage *)

Lemma tls_set_tls t v st : tls (set_tls t v st) t = v.
Proof. unfold tls, set_tls. simpl. by rewrite lookup_insert_eq. Qed.

Lemma tls_set_tls_ne t t' v st : t ≠ t' → tls (set_tls t v st) t' = tls st t'.
Proof. intros Hne. unfold tls, set_tls. simpl. by rewrite lookup_insert_ne. Qed.

Lemma tls_emit e st t : tls (emit e st) t = tls st t.
Proof. done. Qed.

Lemma tls_same t v st t' : tls st t = v → tls (set_tls t v st) t' = tls st t'.
Proof.
  intros Hv. destruct (decide (t = t')) as [<-|Hne].
  - by rewrite tls_set_tls.
  - by apply tls_set_tls_ne.
Qed.

Lemma tls_set_in_logger t v st :
  tls (set_in_logger t v st) t = {| scope_logger := scope_logger (tls st t); in_logger := v |}.
Proof. apply tls_set_tls. Qed.

Lemma tls_set_in_logger_ne t t' v st : t ≠ t' → tls (set_in_logger t v st) t' = tls st t'.
Proof. apply tls_set_tls_ne. Qed.

Lemma tls_set_scope_logger t p st :
  tls (set_scope_logger t p st) t = {| scope_logger := p; in_logger := in_logger (tls st t) |}.
Proof. apply tls_set_tls. Qed.

Lemma tls_set_scope_logger_ne t t' p st : t ≠ t' → tls (set_scope_logger t p st) t' = tls st t'.
Proof. apply tls_set_tls_ne. Qed.

(** The lazy caching of the global logger, as the three functions that do
    it share it. *)
Lemma cache_global t st :
  let st' := if scope_logger (tls st t) is None
             then set_scope_logger t (global_logger st) st else st in
  tls st' t = {| scope_logger := effective_sink t st; in_logger := in_logger (tls st t) |}
  ∧ (∀ t', t ≠ t' → tls st' t' = tls st t')
  ∧ global_logger st' = global_logger st
  ∧ exit_hooks st' = exit_hooks st
  ∧ events st' = events st.
Proof.
  unfold effective_sink. destruct (scope_logger (tls st t)) as [p|] eqn:Et; cbn zeta.
  - repeat split; try done. rewrite <- Et. by destruct (tls st t).
  - rewrite tls_set_scope_logger. repeat split; try done.
    intros t' Hne. by apply tls_set_scope_logger_ne.
Qed.

(** ** The reentrancy guard *)

(** A call made while the flag is set returns at once, whatever the fuel. *)
Lemma log_log_impl_nested `{Build} `{Backends} fuel t c st :
  in_logger (tls st t) = true → log_log_impl fuel t c st = Ok st.
Proof. intros Hin. destruct fuel; simpl; by rewrite Hin. Qed.

Lemma run_each_nested `{Build} `{Backends} fuel t cs st :
  in_logger (tls st t) = true → run_each (log_log_impl fuel t) cs st = Ok st.
Proof.
  intros Hin. induction cs as [|c cs IH]; [done|].
  cbn [run_each]. by rewrite log_log_impl_nested.
Qed.

Lemma log_log_impl_outer `{Build} `{Backends} fuel t c st :
  in_logger (tls st t) = false →
  log_log_impl (S fuel) t c st =
    let st1 := set_in_logger t true st in
    let st2 := if scope_logger (tls st1 t) is None
               then set_scope_logger t (global_logger st1) st1 else st1 in
    match scope_logger (tls st2 t) with
    | None => Ok (set_in_logger t false st2)
    | Some logger =>
      Msg ← build_message c;
      st3 ← run_each (log_log_impl fuel t) (relogs logger Msg) (emit (EvLog logger Msg) st2);
      Ok (set_in_logger t false st3)
    end.
Proof. intros Hin. cbn [log_log_impl]. by rewrite Hin. Qed.

(** The state in which the sink is looked up. *)
Lemma resolved_state t st :
  let st1 := set_in_logger t true st in
  let st2 := if scope_logger (tls st1 t) is None
             then set_scope_logger t (global_logger st1) st1 else st1 in
  tls st2 t = {| scope_logger := effective_sink t st; in_logger := true |}
  ∧ (∀ t', t ≠ t' → tls st2 t' = tls st t')
  ∧ global_logger st2 = global_logger st
  ∧ exit_hooks st2 = exit_hooks st
  ∧ events st2 = events st.
Proof.
  intros st1 st2.
  destruct (cache_global t st1) as (Ht & Hother & Hg & Hh & He).
  fold st2 in Ht, Hother, Hg, Hh, He.
  assert (Heff : effective_sink t st1 = effective_sink t st).
  { unfold effective_sink, st1. by rewrite tls_set_in_logger. }
  rewrite Ht, Heff. unfold st1 at 1. rewrite tls_set_in_logger. cbn [in_logger].
  repeat split; try done.
  intros t' Hne. rewrite Hother by done. by apply tls_set_in_logger_ne.
Qed.

(** Naming the state in which the sink is looked up. *)
Ltac resolve_sink t st st2 :=
  let Hres := fresh "Hres" in
  pose proof (resolved_state t st) as Hres; cbn zeta in Hres;
  match type of Hres with
  | tls ?s _ = _ ∧ _ => generalize dependent s; intros st2 Hres
  end.

(** The path of a call that finds no sink. *)
Lemma log_log_impl_no_sink `{Build} `{Backends} fuel t c st :
  in_logger (tls st t) = false → effective_sink t st = None →
  ∃ st', log_log_impl (S fuel) t c st = Ok st'
         ∧ global_logger st' = global_logger st
         ∧ (∀ t', tls st' t' = tls st t')
         ∧ exit_hooks st' = exit_hooks st
         ∧ events st' = events st.
Proof.
  intros Hin Heff. rewrite log_log_impl_outer by done. cbn zeta.
  resolve_sink t st st2. destruct Hres as (Ht & Hother & Hg & Hh & He).
  rewrite Ht. cbn [scope_logger]. rewrite Heff.
  eexists. split; [reflexivity|].
  repeat split; try done.
  intros t'. destruct (decide (t = t')) as [<-|Hne].
  - rewrite tls_set_in_logger, Ht. cbn [scope_logger]. rewrite Heff.
    unfold effective_sink in Heff.
    destruct (tls st t) as [[p|] fl]; simpl in *; congruence.
  - rewrite tls_set_in_logger_ne by done. by apply Hother.
Qed.

(** The path of a call that finds a sink: the record is built, handed to
    the sink, and whatever the sink logs meanwhile leaves no trace. *)
Lemma log_log_impl_sink `{Build} `{Backends} fuel t c st p :
  in_logger (tls st t) = false → effective_sink t st = Some p →
  ∃ deliver : CLogMessage → State,
    log_log_impl (S fuel) t c st = (Msg ← build_message c; Ok (deliver Msg))
    ∧ ∀ Msg, events (deliver Msg) = events st ++ [EvLog p Msg]
             ∧ global_logger (deliver Msg) = global_logger st
             ∧ exit_hooks (deliver Msg) = exit_hooks st
             ∧ tls (deliver Msg) t = {| scope_logger := Some p; in_logger := false |}
             ∧ (∀ t', t ≠ t' → tls (deliver Msg) t' = tls st t').
Proof.
  intros Hin Heff. rewrite log_log_impl_outer by done. cbn zeta.
  resolve_sink t st st2. destruct Hres as (Ht & Hother & Hg & Hh & He).
  rewrite Ht. cbn [scope_logger]. rewrite Heff.
  exists (λ Msg, set_in_logger t false (emit (EvLog p Msg) st2)). split.
  - destruct (build_message c) as [Msg| | |]; try done.
    rewrite !bind_Ok. by rewrite run_each_nested by (by rewrite tls_emit, Ht).
  - intros Msg. rewrite tls_set_in_logger, tls_emit, Ht. cbn [scope_logger].
    repeat split; try done.
    + simpl. by rewrite He.
    + by rewrite Heff.
    + intros t' Hne. rewrite tls_set_in_logger_ne by done. rewrite tls_emit. by apply Hother.
Qed.

Lemma log_log_impl_delivers `{Build} `{Backends} fuel t c st p Msg :
  in_logger (tls st t) = false → effective_sink t st = Some p →
  build_message c = Ok Msg →
  ∃ st', log_log_impl (S fuel) t c st = Ok st'
         ∧ events st' = events st ++ [EvLog p Msg]
         ∧ global_logger st' = global_logger st
         ∧ exit_hooks st' = exit_hooks st
         ∧ tls st' t = {| scope_logger := Some p; in_logger := false |}
         ∧ (∀ t', t ≠ t' → tls st' t' = tls st t').
Proof.
  intros Hin Heff HMsg.
  destruct (log_log_impl_sink fuel t c st p Hin Heff) as (deliver & -> & Hd).
  rewrite HMsg, bind_Ok. exists (deliver Msg). split; [done|]. apply Hd.
Qed.

(** When the record cannot be built the call ends where [build_message]
    does. *)
Lemma log_log_impl_build_fails `{Build} `{Backends} fuel t c st p :
  in_logger (tls st t) = false → effective_sink t st = Some p →
  build_message c = Undefined → log_log_impl (S fuel) t c st = Undefined.
Proof.
  intros Hin Heff HMsg.
  destruct (log_log_impl_sink fuel t c st p Hin Heff) as (deliver & -> & _).
  by rewrite HMsg.
Qed.

(** One unit of fuel is enough for every call. *)
Lemma log_log_impl_total `{Build} `{Backends} fuel t c st :
  log_log_impl (S fuel) t c st = log_log_impl 1 t c st
  ∧ log_log_impl (S fuel) t c st ≠ OutOfFuel.
Proof.
  destruct (in_logger (tls st t)) eqn:Hin.
  { rewrite !log_log_impl_nested by done. done. }
  rewrite !log_log_impl_outer by done. cbn zeta.
  resolve_sink t st st2. destruct Hres as (Ht & _).
  rewrite Ht. cbn [scope_logger].
  destruct (effective_sink t st) as [p|]; [|done].
  unfold build_message, str_length.
  repeat (match goal with |- context [c_str ?b] => destruct (c_str b) end;
          rewrite ?bind_Ok; try done).
  rewrite !run_each_nested by (by rewrite tls_emit, Ht). done.
Qed.

(** The registry cells a call leaves alone. *)
Lemma log_log_impl_frame `{Build} `{Backends} fuel t c st st' :
  log_log_impl (S fuel) t c st = Ok st' →
  global_logger st' = global_logger st ∧ exit_hooks st' = exit_hooks st
  ∧ in_logger (tls st' t) = in_logger (tls st t)
  ∧ (∀ t', t ≠ t' → tls st' t' = tls st t').
Proof.
  intros Hrun. destruct (in_logger (tls st t)) eqn:Hin.
  { rewrite log_log_impl_nested in Hrun by done. by injection Hrun as <-. }
  destruct (effective_sink t st) as [p|] eqn:Heff.
  - destruct (log_log_impl_sink fuel t c st p Hin Heff) as (deliver & E & Hd).
    rewrite E in Hrun. destruct (build_message c) as [Msg| | |]; try done.
    rewrite bind_Ok in Hrun. injection Hrun as <-.
    destruct (Hd Msg) as (_ & Hg & Hh & Ht & Hother). rewrite Ht. done.
  - destruct (log_log_impl_no_sink fuel t c st Hin Heff) as (st'' & E & Hg & Ht & Hh & _).
    rewrite E in Hrun. injection Hrun as <-. rewrite Ht, Hin. done.
Qed.

(** ** The claims about the registry *)

Lemma log_get_scope_logger_spec t st :
  (log_get_scope_logger t st).1 = effective_sink t st
  ∧ global_logger (log_get_scope_logger t st).2 = global_logger st
  ∧ exit_hooks (log_get_scope_logger t st).2 = exit_hooks st.
Proof.
  unfold log_get_scope_logger. cbn zeta.
  destruct (cache_global t st) as (Ht & _ & Hg & Hh & _). cbn zeta in Ht, Hg, Hh.
  cbn [fst snd]. rewrite Ht. done.
Qed.

Lemma log_set_scope_logger_frame t logger st :
  global_logger (log_set_scope_logger t logger st) = global_logger st
  ∧ exit_hooks (log_set_scope_logger t logger st) = exit_hooks st.
Proof.
  unfold log_set_scope_logger. cbn zeta.
  destruct (cache_global t (set_scope_logger t logger st)) as (_ & _ & Hg & Hh & _).
  cbn zeta in Hg, Hh. rewrite Hg, Hh. done.
Qed.

Lemma log_set_global_logger_first logger st :
  global_logger st = None →
  log_set_global_logger logger st
  = Ok (atexit hook_log_global_logger_finish (set_global_logger logger st)).
Proof.
  intros Hg. unfold log_set_global_logger, compare_exchange_strong. cbn zeta.
  by rewrite Hg, bool_decide_eq_true_2.
Qed.

Lemma log_set_global_logger_again logger p st :
  global_logger st = Some p →
  log_set_global_logger logger st
  = Fatal "global logger has already been set and can only be set once".
Proof.
  intros Hg. unfold log_set_global_logger, compare_exchange_strong. cbn zeta.
  by rewrite Hg, bool_decide_eq_false_2.
Qed.

(** C3. Reentrancy guard: a call made while [in_logger] is set on the
    thread returns at once and changes nothing, so no record is built and no
    sink is reached; and an outer call is delivered to the effective sink as
    its only record, whatever that sink logs while it handles it. *)
Theorem reentrant_call_dropped `{Build} `{Backends} fuel t c st :
  (in_logger (tls st t) = true → log_log_impl fuel t c st = Ok st)
  ∧ (∀ p Msg, in_logger (tls st t) = false → effective_sink t st = Some p →
       build_message c = Ok Msg →
       ∃ st', log_log_impl (S fuel) t c st = Ok st'
              ∧ events st' = events st ++ [EvLog p Msg]).
Proof.
  split.
  - apply log_log_impl_nested.
  - intros p Msg Hin Heff HMsg.
    destruct (log_log_impl_delivers fuel t c st p Msg Hin Heff HMsg) as (st' & E & Hev & _).
    by exists st'.
Qed.

(** C4. Effective-sink resolution: a call that is not nested goes to the
    thread's scope logger if one is set, else to the global logger if one is
    set; with neither, the call returns, no sink is called, nothing is
    stored, and the record is not looked at. *)
Theorem effective_sink_resolution `{Build} `{Backends} fuel t c st :
  in_logger (tls st t) = false →
  (∀ p Msg, scope_logger (tls st t) = Some p → build_message c = Ok Msg →
     ∃ st', log_log_impl (S fuel) t c st = Ok st'
            ∧ events st' = events st ++ [EvLog p Msg])
  ∧ (∀ p Msg, scope_logger (tls st t) = None → global_logger st = Some p →
       build_message c = Ok Msg →
       ∃ st', log_log_impl (S fuel) t c st = Ok st'
              ∧ events st' = events st ++ [EvLog p Msg])
  ∧ (scope_logger (tls st t) = None → global_logger st = None →
       ∃ st', log_log_impl (S fuel) t c st = Ok st'
              ∧ events st' = events st
              ∧ global_logger st' = None
              ∧ exit_hooks st' = exit_hooks st
              ∧ ∀ t', tls st' t' = tls st t').
Proof.
  intros Hin. repeat split.
  - intros p Msg Hsc HMsg.
    destruct (log_log_impl_delivers fuel t c st p Msg) as (st' & E & Hev & _); try done.
    { unfold effective_sink. by rewrite Hsc. }
    by exists st'.
  - intros p Msg Hsc Hg HMsg.
    destruct (log_log_impl_delivers fuel t c st p Msg) as (st' & E & Hev & _); try done.
    { unfold effective_sink. by rewrite Hsc. }
    by exists st'.
  - intros Hsc Hg.
    destruct (log_log_impl_no_sink fuel t c st) as (st' & E & Hg' & Ht & Hh & Hev); try done.
    { unfold effective_sink. by rewrite Hsc. }
    exists st'. rewrite Hg' by done. done.
Qed.

(** C9. The reentrancy flag is cleared on both exits of an outer call: a
    call that enters with the flag unset returns with the flag unset, when
    it finds no sink as well as when the sink's [Log] has returned (the
    sink may have logged meanwhile, and those calls were dropped); so the
    next call on the thread is not dropped and reaches the sink it
    resolves to. *)
Theorem in_logger_restored `{Build} `{Backends} fuel t c st :
  in_logger (tls st t) = false →
  (effective_sink t st = None ∨ ∃ Msg, build_message c = Ok Msg) →
  ∃ st', log_log_impl (S fuel) t c st = Ok st'
    ∧ in_logger (tls st' t) = false
    ∧ ∀ c2 p Msg2, effective_sink t st' = Some p → build_message c2 = Ok Msg2 →
        ∃ st'', log_log_impl (S fuel) t c2 st' = Ok st''
                ∧ events st'' = events st' ++ [EvLog p Msg2]
                ∧ in_logger (tls st'' t) = false.
Proof.
  intros Hin Hpath.
  assert (∃ st', log_log_impl (S fuel) t c st = Ok st' ∧ in_logger (tls st' t) = false)
    as (st' & E & Hin').
  { destruct (effective_sink t st) as [p|] eqn:Heff.
    - destruct Hpath as [?|[Msg HMsg]]; [done|].
      destruct (log_log_impl_delivers fuel t c st p Msg) as (st' & E & _ & _ & _ & Ht & _);
        try done.
      exists st'. by rewrite Ht.
    - destruct (log_log_impl_no_sink fuel t c st) as (st' & E & _ & Ht & _); try done.
      exists st'. by rewrite Ht. }
  exists st'. repeat split; try done.
  intros c2 p Msg2 Heff2 HMsg2.
  destruct (log_log_impl_delivers fuel t c2 st' p Msg2) as (st'' & E2 & Hev & _ & _ & Ht & _);
    try done.
  exists st''. by rewrite Ht.
Qed.

(** The sample call on the small layout: the tag and the message fit. *)
Lemma sample_message_built :
  ∃ Msg, @build_message build_small (sample_call "test" "hello") = Ok Msg
         ∧ Line Msg = bytes "[2022-04-22 10:00:00][test]: hello".
Proof. eexists. split; vm_compute; reflexivity. Defined.

Lemma reentrant_call_dropped_witness :
  (∀ st, in_logger (tls st 0) = true →
         @log_log_impl build_small chatty 1 0 (sample_call "test" "hello") st = Ok st)
  ∧ ∃ Msg st', @build_message build_small (sample_call "test" "hello") = Ok Msg
      ∧ @log_log_impl build_small chatty 1 0 (sample_call "test" "hello") published = Ok st'
      ∧ events st' = [EvLog 7 Msg].
Proof.
  split.
  - intros st. apply (@reentrant_call_dropped build_small chatty 1 0).
  - destruct sample_message_built as (Msg & HMsg & _).
    destruct (proj2 (@reentrant_call_dropped build_small chatty 0 0
                       (sample_call "test" "hello") published) 7 Msg)
      as (st' & E & Hev); [reflexivity|reflexivity|exact HMsg|].
    exists Msg, st'. auto.
Defined.

Lemma effective_sink_resolution_witness :
  ∃ Msg st', @build_message build_small (sample_call "test" "hello") = Ok Msg
    ∧ @log_log_impl build_small quiet 1 0 (sample_call "test" "hello") published = Ok st'
    ∧ events st' = [EvLog 7 Msg].
Proof.
  destruct sample_message_built as (Msg & HMsg & _).
  destruct (@effective_sink_resolution build_small quiet 0 0
              (sample_call "test" "hello") published) as (_ & Hglobal & _); [reflexivity|].
  destruct (Hglobal 7 Msg) as (st' & E & Hev); [reflexivity|reflexivity|exact HMsg|].
  exists Msg, st'. auto.
Defined.

Lemma in_logger_restored_witness :
  ∃ st', @log_log_impl build_small chatty 1 0 (sample_call "test" "hello") published = Ok st'
    ∧ in_logger (tls st' 0) = false.
Proof.
  destruct sample_message_built as (Msg & HMsg & _).
  destruct (@in_logger_restored build_small chatty 0 0
              (sample_call "test" "hello") published) as (st' & E & Hin & _);
    [reflexivity|right; by exists Msg|].
  by exists st'.
Defined.

(** ** Truncation *)

(** Off Windows an over-long tag or message is cut, and the record reaches
    the sink all the same. *)
Lemma log_log_impl_truncates `{B : Build} `{Backends} fuel t c st p :
  well_sized B → CONF_FAMILY_WINDOWS = false →
  no_nul (clock c) → no_nul (sys c) → no_nul (fmt_args c) →
  in_logger (tls st t) = false → effective_sink t st = Some p →
  ∃ Msg st', log_log_impl (S fuel) t c st = Ok st'
    ∧ events st' = events st ++ [EvLog p Msg]
    ∧ c_str (m_aSystem Msg) = Some (take (SYSTEM_SIZE - 1) (sys c))
    ∧ length (m_aLine Msg) = LINE_SIZE ∧ m_LineLength Msg < LINE_SIZE
    ∧ Message Msg = take (LINE_SIZE - 1 - m_LineMessageOffset Msg) (fmt_args c).
Proof.
  intros Hsized Hwin Hclock Hsys Htext Hin Heff.
  destruct (build_message_posix c Hsized Hwin Hclock Hsys Htext)
    as (Msg & HMsg & _ & _ & _ & _ & Htag & _ & Hlen & _ & Hoff & _ & Hlt & _ & Hbody).
  destruct (log_log_impl_delivers fuel t c st p Msg Hin Heff HMsg) as (st' & E & Hev & _).
  exists Msg, st'. rewrite Hoff. done.
Qed.

Example truncated_on_small_layout :
  ∃ Msg st',
    @log_log_impl build_small quiet 1 0 (sample_call "console" "hello, world!") published
    = Ok st'
    ∧ events st' = [EvLog 7 Msg]
    ∧ c_str (m_aSystem Msg) = Some (bytes "cons")
    ∧ Line Msg = bytes "[2022-04-22 10:00:00][cons]: hello, wor"
    ∧ Message Msg = bytes "hello, wor".
Proof. eexists _, _. repeat split; vm_compute; reflexivity. Qed.

(** C8. Silent truncation, on a Windows build: the entry point, called with
    a message longer than the line array while a sink is published, does
    not deliver a truncated record; [_vsnprintf] leaves [m_aLine] without a
    terminator and [str_length] reads past its end. *)
Theorem log_log_impl_windows_overrun :
  @log_log_impl build_windows quiet 1 0 long_call published = Undefined.
Proof.
  apply (@log_log_impl_build_fails build_windows quiet 0 0 long_call published 7);
    [reflexivity|reflexivity|].
  apply (@build_message_windows_overrun build_windows long_call).
  - unfold well_sized. simpl. lia.
  - reflexivity.
  - unfold no_nul. by apply (bool_decide_unpack _).
  - unfold no_nul. by apply (bool_decide_unpack _).
  - unfold no_nul. apply (bool_decide_unpack _). by vm_compute.
  - apply (bool_decide_unpack _). by vm_compute.
Qed.

(** The same call off Windows: delivered, cut to the line array. *)
Example long_call_posix :
  ∃ Msg st', @log_log_impl build_posix quiet 1 0 long_call published = Ok st'
    ∧ events st' = [EvLog 7 Msg]
    ∧ m_LineLength Msg = 4095
    ∧ Message Msg = replicate 4066 "A"%byte.
Proof. eexists _, _. repeat split; vm_compute; reflexivity. Qed.

(** ** The exit hook *)

(** What one registry operation does to the global logger and to the
    registered exit functions. *)
Lemma op_run_frame `{Build} `{Backends} o st st' :
  op_run o st = Ok st' →
  (∀ p, global_logger st = Some p → global_logger st' = Some p)
  ∧ (passes_logger o →
     (exit_hooks st ≠ [] → global_logger st ≠ None) →
     exit_hooks st' ≠ [] → global_logger st' ≠ None).
Proof.
  destruct o as [logger|t|t logger|t c]; cbn [op_run]; intros Hrun.
  - destruct (global_logger st) as [q|] eqn:Hg.
    + by rewrite (log_set_global_logger_again logger q) in Hrun.
    + rewrite log_set_global_logger_first in Hrun by done. injection Hrun as <-.
      split; [done|]. intros Hpass _ _. simpl. by destruct logger.
  - replace st' with (log_get_scope_logger t st).2 by congruence.
    destruct (log_get_scope_logger_spec t st) as (_ & -> & ->). auto.
  - replace st' with (log_set_scope_logger t logger st) by congruence.
    destruct (log_set_scope_logger_frame t logger st) as (-> & ->). auto.
  - destruct (log_log_impl_frame 0 t c st st' Hrun) as (-> & -> & _). auto.
Qed.

Lemma run_ops_keep_global `{Build} `{Backends} ops st st' p :
  run_each op_run ops st = Ok st' → global_logger st = Some p →
  global_logger st' = Some p.
Proof.
  revert st. induction ops as [|o ops IH]; intros st Hrun Hg.
  - by injection Hrun as <-.
  - cbn [run_each] in Hrun. destruct (op_run o st) as [st1| | |] eqn:E; try done.
    rewrite bind_Ok in Hrun. apply (IH st1); [done|].
    by apply (op_run_frame o st st1 E).
Qed.

Lemma run_ops_hooked `{Build} `{Backends} ops st st' :
  Forall passes_logger ops → run_each op_run ops st = Ok st' →
  (exit_hooks st ≠ [] → global_logger st ≠ None) →
  exit_hooks st' ≠ [] → global_logger st' ≠ None.
Proof.
  intros Hpass. revert st. induction Hpass as [|o ops Ho Hops IH]; intros st Hrun Hinv.
  - by injection Hrun as <-.
  - cbn [run_each] in Hrun. destruct (op_run o st) as [st1| | |] eqn:E; try done.
    rewrite bind_Ok in Hrun. apply (IH st1); [done|].
    by apply (op_run_frame o st st1 E).
Qed.



(** Handing [nullptr] to [log_set_global_logger] is not publishing a logger:
    the exchange of null for null succeeds, the exit function is registered
    all the same, the registry stays unset, and a later call succeeds as
    well. *)
Remark log_set_global_logger_nullptr (later : option ptr) :
  log_set_global_logger None initial
  = Ok (atexit hook_log_global_logger_finish initial)
  ∧ process_exit (atexit hook_log_global_logger_finish initial) = Undefined
  ∧ ∃ st, log_set_global_logger later (atexit hook_log_global_logger_finish initial) = Ok st.
Proof. split; [done|]. split; [done|]. by eexists. Qed.

(** With a logger published every registered exit function returns. *)
Lemma run_hooks_published hooks st p :
  global_logger st = Some p → ∃ st', run_each run_hook hooks st = Ok st'.
Proof.
  revert st. induction hooks as [|[] hooks IH]; intros st Hg; [by eexists|].
  cbn [run_each run_hook]. unfold log_global_logger_finish. rewrite Hg, bind_Ok.
  by apply IH.
Qed.

(** C10. [log_global_logger_finish] dereferences the global logger without
    a check: before any logger is published the call is undefined.  In every
    state the program reaches while handing loggers to
    [log_set_global_logger], an exit function is registered only if a
    logger is published; a published logger makes the dereference safe and
    is never replaced by later operations; so the functions run at normal
    exit all return. *)
Theorem global_finish_precondition `{Build} `{Backends} (ops : list Op) (st : State) :
  Forall passes_logger ops →
  run_each op_run ops initial = Ok st →
  log_global_logger_finish initial = Undefined
  ∧ (exit_hooks st ≠ [] → ∃ p, global_logger st = Some p)
  ∧ (∃ st', process_exit st = Ok st')
  ∧ (∀ p, global_logger st = Some p →
       log_global_logger_finish st = Ok (emit (EvFinish p) st)
       ∧ ∀ ops' st', run_each op_run ops' st = Ok st' → global_logger st' = Some p).
Proof.
  intros Hpass Hrun.
  assert (Hinv : exit_hooks st ≠ [] → global_logger st ≠ None).
  { by apply (run_ops_hooked ops initial st). }
  split; [done|]. split; [|split].
  - intros Hh. destruct (global_logger st) as [p|] eqn:Hg; [by exists p|].
    by destruct (Hinv Hh).
  - unfold process_exit. destruct (exit_hooks st) as [|h hooks] eqn:Hh; [by eexists|].
    destruct (global_logger st) as [p|] eqn:Hg.
    + rewrite <- Hh. by apply (run_hooks_published _ st p).
    + by destruct Hinv.
  - intros p Hg. split.
    + unfold log_global_logger_finish. by rewrite Hg.
    + intros ops' st' Hrun'. by apply (run_ops_keep_global ops' st st').
Qed.

Lemma global_finish_precondition_witness :
  ∃ st, @run_each Op State (@op_run build_small quiet) sample_ops initial = Ok st
    ∧ (exit_hooks st ≠ [] → ∃ p, global_logger st = Some p)
    ∧ ∃ st', process_exit st = Ok st'.
Proof.
  eexists. split; [vm_compute; reflexivity|].
  refine ((λ H, conj (proj1 (proj2 H)) (proj1 (proj2 (proj2 H))))
            (@global_finish_precondition build_small quiet sample_ops _ _ _)).
  - unfold sample_ops. repeat constructor.
  - vm_compute. reflexivity.
Defined.

(** ** Sinks: the collection *)

Lemma run_each_app {A S} (f : A → S → result S) xs ys s :
  run_each f (xs ++ ys) s = (s' ← run_each f xs s; run_each f ys s').
Proof.
  revert s. induction xs as [|x xs IH]; intros s; [done|].
  cbn [app run_each]. destruct (f x s) as [s1| | |]; try done.
  rewrite !bind_Ok. apply IH.
Qed.

(** A run of [Log] calls on one sink. *)
Lemma foldl_call_Log `{Objects W} p ms (s : Sys W) :
  foldl (λ s m, call_Log p m s) s ms
  = (s.1 ++ (EvLog p <$> ms), foldl (λ w m, Log (deref p) m w) s.2 ms).
Proof.
  revert s. induction ms as [|m ms IH]; intros [evs w].
  - simpl. by rewrite app_nil_r.
  - cbn [foldl fmap list_fmap]. rewrite IH. unfold call_Log. simpl.
    by rewrite <- app_assoc.
Qed.

(** What a sink was handed by a run of calls made on it alone. *)
Lemma logged_to_own p ms : logged_to p (EvLog p <$> ms) = ms.
Proof.
  unfold logged_to. induction ms as [|m ms IH]; [done|].
  cbn [fmap list_fmap omap list_omap]. rewrite bool_decide_eq_true_2 by done.
  f_equal. apply IH.
Qed.

(** The loop of [CLoggerCollection::Log]. *)
Lemma CLoggerCollection_Log_calls `{Objects W} (loggers : list ptr) (m : CLogMessage)
    (s : Sys W) :
  CLoggerCollection_Log (log_logger_collection loggers) m s
  = (s.1 ++ ((λ p, EvLog p m) <$> loggers), foldl (λ w p, Log (deref p) m w) s.2 loggers).
Proof.
  unfold CLoggerCollection_Log. cbn [m_apLoggers log_logger_collection].
  revert s. induction loggers as [|p loggers IH]; intros [evs w].
  - simpl. by rewrite app_nil_r.
  - cbn [foldl fmap list_fmap]. rewrite IH. simpl. by rewrite <- app_assoc.
Qed.

(** The loop of [CLoggerCollection::GlobalFinish]. *)
Lemma CLoggerCollection_GlobalFinish_calls `{Objects W} (loggers : list ptr) (s : Sys W) :
  CLoggerCollection_GlobalFinish (log_logger_collection loggers) s
  = (s.1 ++ (EvFinish <$> loggers), foldl (λ w p, GlobalFinish (deref p) w) s.2 loggers).
Proof.
  unfold CLoggerCollection_GlobalFinish. cbn [m_apLoggers log_logger_collection].
  revert s. induction loggers as [|p loggers IH]; intros [evs w].
  - simpl. by rewrite app_nil_r.
  - cbn [foldl fmap list_fmap]. rewrite IH. simpl. by rewrite <- app_assoc.
Qed.

(** C5. Collection broadcast: one [Log] on a collection over the children
    [loggers] makes one [Log] call on each entry, first to last, and each
    child handles the record once, in that order; [GlobalFinish] does the
    same with the children's [GlobalFinish]. *)
Theorem collection_broadcast `{Objects W} (loggers : list ptr) (m : CLogMessage) (s : Sys W) :
  CLoggerCollection_Log (log_logger_collection loggers) m s
  = (s.1 ++ ((λ p, EvLog p m) <$> loggers), foldl (λ w p, Log (deref p) m w) s.2 loggers)
  ∧ CLoggerCollection_GlobalFinish (log_logger_collection loggers) s
    = (s.1 ++ (EvFinish <$> loggers), foldl (λ w p, GlobalFinish (deref p) w) s.2 loggers).
Proof.
  split; [apply CLoggerCollection_Log_calls|apply CLoggerCollection_GlobalFinish_calls].
Qed.

(** With every child registered once, each child is handed the record
    exactly once. *)
Lemma collection_once `{Objects W} (loggers : list ptr) m (w : W) p :
  NoDup loggers → p ∈ loggers →
  logged_to p (CLoggerCollection_Log (log_logger_collection loggers) m ([], w)).1 = [m].
Proof.
  intros Hnd Hin. rewrite CLoggerCollection_Log_calls. cbn [fst app].
  unfold logged_to. induction Hnd as [|q loggers Hq Hnd IH]; [by apply elem_of_nil in Hin|].
  cbn [fmap list_fmap omap list_omap]. apply elem_of_cons in Hin as [->|Hin].
  - rewrite bool_decide_eq_true_2 by done. f_equal.
    clear IH Hnd. induction loggers as [|q' loggers IH]; [done|].
    apply not_elem_of_cons in Hq as [Hne Hq].
    cbn [fmap list_fmap omap list_omap]. rewrite bool_decide_eq_false_2 by done. by apply IH.
  - rewrite bool_decide_eq_false_2 by (intros ->; done). by apply IH.
Qed.

(** ** Sinks: the deferred sink *)

(** While no sink is attached the records pile up in arrival order and
    nothing is called. *)
Lemma future_buffers `{Objects W} pre fl (s : Sys W) :
  m_pLogger fl = None →
  ∃ v, run_each future_call (FLog <$> pre) (fl, s)
       = Ok ({| m_pLogger := None; m_aPending := v |}, s)
       ∧ data v = data (m_aPending fl) ++ pre.
Proof.
  revert fl. induction pre as [|m pre IH]; intros [pl v] Hnone; simpl in Hnone; subst pl.
  - exists v. simpl. by rewrite app_nil_r.
  - cbn [fmap list_fmap run_each future_call CFutureLogger_Log m_pLogger m_aPending].
    rewrite bind_Ok.
    destruct (IH {| m_pLogger := None; m_aPending := push_back m v |} eq_refl) as (v' & -> & Hv').
    exists v'. split; [done|]. rewrite Hv'. simpl. by rewrite <- app_assoc.
Qed.

(** The replay loop of [Set]. *)
Lemma future_replays `{Objects W} p ms (s : Sys W) :
  run_each (λ Pending s, Ok (call_Log p Pending s)) ms s
  = Ok (foldl (λ s m, call_Log p m s) s ms).
Proof.
  revert s. induction ms as [|m ms IH]; intros s; [done|].
  cbn [run_each foldl]. rewrite bind_Ok. apply IH.
Qed.

Lemma CFutureLogger_Set_first `{Objects W} p v (s : Sys W) :
  CFutureLogger_Set (Some p) ({| m_pLogger := None; m_aPending := v |}, s)
  = Ok ({| m_pLogger := Some p; m_aPending := {| data := []; capacity := 0 |} |},
        foldl (λ s m, call_Log p m s) s (data v)).
Proof.
  unfold CFutureLogger_Set, compare_exchange_strong. cbn [m_pLogger m_aPending].
  rewrite bool_decide_eq_true_2 by done. cbn [negb]. rewrite bind_Ok.
  by rewrite future_replays, bind_Ok.
Qed.

Lemma CFutureLogger_Set_again `{Objects W} again p v (s : Sys W) :
  CFutureLogger_Set again ({| m_pLogger := Some p; m_aPending := v |}, s)
  = Fatal "future logger has already been set and can only be set once".
Proof.
  unfold CFutureLogger_Set, compare_exchange_strong. cbn [m_pLogger m_aPending].
  by rewrite bool_decide_eq_false_2.
Qed.

(** Once a sink is attached every record goes straight to it and the
    deferred sink itself does not change. *)
Lemma future_forwards `{Objects W} p post fl (s : Sys W) :
  m_pLogger fl = Some p →
  run_each future_call (FLog <$> post) (fl, s)
  = Ok (fl, foldl (λ s m, call_Log p m s) s post).
Proof.
  intros Hp. revert s. induction post as [|m post IH]; intros s; [done|].
  cbn [fmap list_fmap run_each future_call CFutureLogger_Log foldl]. rewrite Hp, bind_Ok.
  apply IH.
Qed.

(** C1. Deferred sink: [k] records logged before [Set(real)] are kept in
    order and reach no sink; [Set] attaches [real], replays the [k] records
    to it in order, once, and leaves the buffer empty with no storage; the
    [m] records logged afterwards go straight to [real] and leave the
    deferred sink as it is; [real] has then handled the [k + m] records in
    order, each once; and a second [Set] stops on the assertion. *)
Theorem deferred_sink_replay `{Objects W} (real : ptr) (pre post : list CLogMessage)
    (again : option ptr) (s : Sys W) :
  let attached := {| m_pLogger := Some real;
                     m_aPending := {| data := []; capacity := 0 |} |} in
  let after ms := (s.1 ++ (EvLog real <$> ms), foldl (λ w m, Log (deref real) m w) s.2 ms) in
  (∃ v, run_each future_call (FLog <$> pre) (CFutureLogger_new, s)
        = Ok ({| m_pLogger := None; m_aPending := v |}, s) ∧ data v = pre)
  ∧ run_each future_call ((FLog <$> pre) ++ [FSet (Some real)]) (CFutureLogger_new, s)
    = Ok (attached, after pre)
  ∧ run_each future_call ((FLog <$> pre) ++ [FSet (Some real)] ++ (FLog <$> post))
      (CFutureLogger_new, s)
    = Ok (attached, after (pre ++ post))
  ∧ logged_to real (EvLog real <$> (pre ++ post)) = pre ++ post
  ∧ length (pre ++ post) = length pre + length post
  ∧ future_call (FSet again) (attached, after (pre ++ post))
    = Fatal "future logger has already been set and can only be set once".
Proof.
  intros attached after.
  destruct (future_buffers pre CFutureLogger_new s eq_refl) as (v & Hbuf & Hv).
  simpl in Hv.
  assert (Hset : run_each future_call ((FLog <$> pre) ++ [FSet (Some real)])
                   (CFutureLogger_new, s) = Ok (attached, after pre)).
  { rewrite run_each_app, Hbuf, bind_Ok. cbn [run_each future_call].
    rewrite CFutureLogger_Set_first, !bind_Ok, Hv, foldl_call_Log. done. }
  split; [by exists v|]. split; [done|]. split; [|split; [|split]].
  - rewrite app_assoc, run_each_app, Hset, bind_Ok.
    rewrite (future_forwards real) by done. rewrite foldl_call_Log.
    unfold after. cbn [fst snd]. by rewrite fmap_app, foldl_app, app_assoc.
  - apply logged_to_own.
  - apply length_app.
  - apply CFutureLogger_Set_again.
Qed.

(** ** Sinks: the asynchronous stream sink *)

Lemma format_d_spec v : no_nul (format_d v) ∧ length (format_d v) ≤ 3.
Proof.
  split.
  - unfold no_nul. apply (bool_decide_unpack _). destruct v; vm_compute; exact I.
  - destruct v; vm_compute; lia.
Qed.

Lemma truecolor_sequence_spec c :
  no_nul (truecolor_sequence c) ∧ length (truecolor_sequence c) ≤ 19.
Proof.
  unfold truecolor_sequence.
  destruct (format_d_spec (r c)) as [Nr Lr], (format_d_spec (g c)) as [Ng Lg],
    (format_d_spec (b c)) as [Nb Lb].
  split.
  - apply no_nul_cons. split; [done|]. rewrite !no_nul_app.
    repeat split; try done; unfold no_nul; by apply (bool_decide_unpack _).
  - cbn [length]. rewrite !length_app. simpl. lia.
Qed.

(** [aAnsi] holds the whole escape sequence, terminated. *)
Lemma ansi_buffer_spec jk m :
  let text := if m_HaveColor m then truecolor_sequence (m_Color m) else default_foreground in
  str_length (ansi_buffer jk m) = Ok (length text)
  ∧ read_bytes (ansi_buffer jk m) (length text) = Ok text.
Proof.
  cbv zeta. set (text := if m_HaveColor m then _ else _).
  assert (Htext : no_nul text ∧ length text ≤ 19).
  { subst text. destruct (m_HaveColor m); [apply truecolor_sequence_spec|].
    split; [|simpl; lia]. unfold no_nul. by apply (bool_decide_unpack _). }
  destruct Htext as [Hn Hl].
  assert (Hbuf : ansi_buffer jk m = poke (uninit jk 32) 0 (take 31 text ++ [NUL])).
  { unfold ansi_buffer, text. by destruct (m_HaveColor m). }
  destruct (bounded_copy (uninit jk 32) 31 text) as (rest & E & L); [apply length_uninit|].
  rewrite Hbuf, E, take_ge by lia. split.
  - by apply str_length_terminated.
  - unfold read_bytes. rewrite bool_decide_eq_true_2 by (rewrite length_app; lia).
    by rewrite take_app_length.
Qed.

(** The calls of one [Log], for a record whose line length is within its
    line array. *)
Lemma CLoggerAsync_Log_calls jk this m :
  m_LineLength m ≤ length (m_aLine m) →
  CLoggerAsync_Log jk this m
  = Ok ([aio_lock] ++
        (if m_AnsiTruecolor this then [aio_write_unlocked (ansi_prefix this m)] else []) ++
        [aio_write_unlocked (Line m); aio_write_newline_unlocked; aio_unlock]).
Proof.
  intros Hlen. unfold CLoggerAsync_Log, ansi_prefix.
  destruct (ansi_buffer_spec jk m) as [Hn Hr]. cbv zeta in Hn, Hr.
  destruct (m_AnsiTruecolor this).
  - rewrite Hn, bind_Ok, Hr, !bind_Ok.
    unfold read_bytes. by rewrite bool_decide_eq_true_2.
  - rewrite bind_Ok. unfold read_bytes. by rewrite bool_decide_eq_true_2.
Qed.

(** C6, as the code has it. Byte layout of one [Log] on the asynchronous
    sink: between one [aio_lock] and one [aio_unlock] the sink appends, when
    ANSI truecolor is enabled, an escape prefix (the 24-bit sequence of the
    record's colour if the record has a colour, the default-foreground
    sequence ESC[39m if it has none), then the [m_LineLength] bytes of the
    line, then a newline; with truecolor disabled it appends the line and
    the newline only. *)
Theorem async_log_layout (jk : nat → byte) (this : CLoggerAsync) (m : CLogMessage)
    (t : tid) (a : ASYNCIO) :
  m_LineLength m ≤ length (m_aLine m) →
  aio_holder a = None →
  ∃ writes a',
    CLoggerAsync_Log jk this m = Ok ([aio_lock] ++ writes ++ [aio_unlock])
    ∧ writes = (if m_AnsiTruecolor this
                then [aio_write_unlocked
                        (if m_HaveColor m then truecolor_sequence (m_Color m)
                         else default_foreground)]
                else []) ++
               [aio_write_unlocked (Line m); aio_write_newline_unlocked]
    ∧ aio_run t ([aio_lock] ++ writes ++ [aio_unlock]) a = Some a'
    ∧ aio_queue a' = aio_queue a ++ rendered this m
    ∧ (m_AnsiTruecolor this = false → aio_queue a' = aio_queue a ++ Line m ++ newline)
    ∧ aio_holder a' = None
    ∧ aio_stream a' = aio_stream a.
Proof.
  intros Hlen Hfree. rewrite CLoggerAsync_Log_calls by done.
  unfold rendered, ansi_prefix. destruct a as [h q st cl fr]. simpl in Hfree. subst h.
  exists ((if m_AnsiTruecolor this
           then [aio_write_unlocked
                   (if m_HaveColor m then truecolor_sequence (m_Color m)
                    else default_foreground)]
           else []) ++ [aio_write_unlocked (Line m); aio_write_newline_unlocked]).
  destruct (m_AnsiTruecolor this); eexists;
    (split; [reflexivity|]); (split; [reflexivity|]);
    (split; [reflexivity|]); cbn; rewrite <- ?app_assoc; repeat split; try done.
Qed.

Lemma async_log_layout_witness :
  ∃ a', aio_run 0 ([aio_lock] ++
                   [aio_write_unlocked (truecolor_sequence (m_Color orange_record));
                    aio_write_unlocked (Line orange_record);
                    aio_write_newline_unlocked] ++ [aio_unlock]) (aio_new []) = Some a'
    ∧ aio_queue a' = ESC :: bytes "[38;2;255;128;7m[2022-04-22 10:00:00][test]: hello" ++ newline.
Proof.
  destruct (async_log_layout (λ _, xaa) (log_logger_stdout false) orange_record 0 (aio_new []))
    as (writes & a' & _ & -> & Hrun & Hq & _); [simpl; lia|reflexivity|].
  exists a'. split; [exact Hrun|]. rewrite Hq. reflexivity.
Defined.

(** C6, as it is worded: the truecolor sequence of the record's colour is
    not the prefix of a record without colour.  The line that
    [log_log] builds for "hello" is written to a truecolor terminal behind
    ESC[39m. *)
Lemma async_log_prefix_counterexample :
  ∃ calls a',
    CLoggerAsync_Log (λ _, xaa) (log_logger_stdout false) sample_record = Ok calls
    ∧ aio_run 0 calls (aio_new []) = Some a'
    ∧ aio_queue a' = ESC :: bytes "[39m[2022-04-22 10:00:00][test]: hello" ++ newline
    ∧ truecolor_only_layout (log_logger_stdout false) sample_record
      = ESC :: bytes "[38;2;0;0;0m[2022-04-22 10:00:00][test]: hello" ++ newline
    ∧ aio_queue a' ≠ truecolor_only_layout (log_logger_stdout false) sample_record.
Proof.
  eexists _, _. split; [vm_compute; reflexivity|]. split; [vm_compute; reflexivity|].
  split; [vm_compute; reflexivity|]. split; [vm_compute; reflexivity|].
  vm_compute. discriminate.
Qed.

Example sample_record_built :
  @build_message build_small (sample_call "test" "hello") = Ok sample_record.
Proof. vm_compute. reflexivity. Qed.

(** ** Threads sharing one asynchronous sink *)

(** A [Log] that returns its calls was given a line length within the line
    array. *)
Lemma CLoggerAsync_Log_bounds jk this m cs :
  CLoggerAsync_Log jk this m = Ok cs → m_LineLength m ≤ length (m_aLine m).
Proof.
  unfold CLoggerAsync_Log. destruct (ansi_buffer_spec jk m) as [Hn Hr]. cbv zeta in Hn, Hr.
  destruct (m_AnsiTruecolor this); cbv zeta;
    rewrite ?Hn, ?bind_Ok, ?Hr, ?bind_Ok; unfold read_bytes; by case_bool_decide.
Qed.

(** The calls of one [Log]: the lock, writes only, the unlock; and the
    writes carry the rendered line. *)
Lemma CLoggerAsync_Log_shape jk this m cs :
  CLoggerAsync_Log jk this m = Ok cs →
  ∃ writes, cs = aio_lock :: writes ++ [aio_unlock]
            ∧ Forall (λ c, is_write c = true) writes
            ∧ payload (aio_lock :: writes) = rendered this m.
Proof.
  intros Hcs. pose proof (CLoggerAsync_Log_bounds jk this m cs Hcs) as Hlen.
  rewrite CLoggerAsync_Log_calls in Hcs by done. injection Hcs as <-.
  exists ((if m_AnsiTruecolor this then [aio_write_unlocked (ansi_prefix this m)] else [])
          ++ [aio_write_unlocked (Line m); aio_write_newline_unlocked]).
  unfold rendered, ansi_prefix, payload.
  destruct (m_AnsiTruecolor this); cbn; rewrite ?app_nil_r;
    repeat split; try done; repeat constructor.
Qed.

Lemma finish_calls_passive jk this w cs :
  calls_of jk this w = Ok cs → (∀ m, w ≠ DoLog m) →
  Forall (λ c, is_passive c = true) cs.
Proof.
  intros Hcs Hw. destruct w as [m| |]; [by destruct (Hw m)| |];
    cbn in Hcs; injection Hcs as <-;
    unfold CLoggerAsync_GlobalFinish, CLoggerAsync_destroy;
    destruct (m_Close this); repeat constructor.
Qed.

(** Where a call sits inside a [Log]. *)
Lemma Log_call_position writes pc c :
  Forall (λ c, is_write c = true) writes →
  (aio_lock :: writes ++ [aio_unlock]) !! pc = Some c →
  (pc = 0 ∧ c = aio_lock)
  ∨ (0 < pc ∧ S pc < length (aio_lock :: writes ++ [aio_unlock]) ∧ is_write c = true)
  ∨ (0 < pc ∧ S pc = length (aio_lock :: writes ++ [aio_unlock]) ∧ c = aio_unlock
     ∧ take pc (aio_lock :: writes ++ [aio_unlock]) = aio_lock :: writes).
Proof.
  intros Hw Hc. destruct pc as [|pc]; [left; by injection Hc as <-|]. right.
  change ((writes ++ [aio_unlock]) !! pc = Some c) in Hc.
  cbn [length]. rewrite length_app. cbn [length].
  destruct (decide (pc < length writes)) as [Hlt|Hge].
  - left. rewrite lookup_app_l in Hc by done.
    split; [lia|]. split; [lia|].
    rewrite Forall_lookup in Hw. by apply (Hw pc c).
  - right. rewrite lookup_app_r in Hc by lia.
    destruct (pc - length writes) as [|k] eqn:Hk; [|by destruct k].
    injection Hc as <-. assert (pc = length writes) as -> by lia.
    split; [lia|]. split; [lia|]. split; [done|].
    cbn [take]. by rewrite take_app_length.
Qed.

Lemma payload_app cs1 cs2 : payload (cs1 ++ cs2) = payload cs1 ++ payload cs2.
Proof. unfold payload. by rewrite fmap_app, concat_app. Qed.

(** What one call does to the handle. *)
Lemma aio_exec_write t c a a' :
  is_write c = true → aio_exec t c a = Some a' →
  aio_holder a' = aio_holder a ∧ aio_stream a' = aio_stream a
  ∧ aio_queue a' = aio_queue a ++ payload_of c.
Proof. destruct c; try done; intros _ [= <-]; done. Qed.

Lemma aio_exec_passive t c a a' :
  is_passive c = true → aio_exec t c a = Some a' →
  aio_holder a' = aio_holder a ∧ aio_stream a' = aio_stream a
  ∧ aio_queue a' = aio_queue a.
Proof.
  destruct c; try done; cbn [aio_exec]; intros _.
  - by intros [= <-].
  - destruct (aio_queue a) eqn:Hq; [|done]. by intros [= <-].
  - by intros [= <-].
Qed.

Lemma by_thread_snoc t t' w h :
  by_thread t (h ++ [(t', w)])
  = by_thread t h ++ (if bool_decide (t' = t) then [w] else []).
Proof. unfold by_thread. rewrite omap_app. cbn. by case_bool_decide. Qed.

Lemma logs_snoc t w h :
  logs (h ++ [(t, w)]) = logs h ++ (match w with DoLog m => [m] | _ => [] end).
Proof. unfold logs. rewrite omap_app. cbn. by destruct w. Qed.

Lemma todo_insert t t' v M a h :
  todo {| aio := a; clients := <[t := v]> (clients M); returned := h |} t'
  = if bool_decide (t = t') then v.2 else todo M t'.
Proof.
  unfold todo. cbn [clients]. case_bool_decide as Ht.
  - subst. rewrite lookup_insert_eq. by destruct v.
  - by rewrite lookup_insert_ne.
Qed.

Lemma partial_line_free jk this M :
  aio_holder (aio M) = None → partial_line jk this M = [].
Proof. intros Hh. unfold partial_line. by rewrite Hh. Qed.

Lemma partial_line_held jk this M t pc w ws cs :
  aio_holder (aio M) = Some t → clients M !! t = Some (pc, w :: ws) →
  calls_of jk this w = Ok cs → partial_line jk this M = payload (take pc cs).
Proof. intros Hh Hcl Hcs. unfold partial_line. by rewrite Hh, Hcl, Hcs. Qed.

(** A step of the worker keeps the order of the bytes. *)
Lemma worker_consistent jk this file work n M :
  consistent jk this file work M →
  consistent jk this file work
    {| aio := aio_worker n (aio M); clients := clients M; returned := returned M |}.
Proof.
  intros (Hacc & Hbytes & Hidle & Hhold).
  split; [|split; [|split]]; try done.
  cbn. rewrite <- app_assoc, take_drop. exact Hbytes.
Qed.

(** A call of [GlobalFinish] or of the destructor moves no byte. *)
Lemma passive_consistent jk this file work t pc w ws cs c a' M M' :
  consistent jk this file work M →
  clients M !! t = Some (pc, w :: ws) → calls_of jk this w = Ok cs →
  (∀ m, w ≠ DoLog m) →
  cs !! pc = Some c → aio_exec t c (aio M) = Some a' →
  M' = (if bool_decide (S pc = length cs)
        then {| aio := a'; clients := <[t := (0, ws)]> (clients M);
                returned := returned M ++ [(t, w)] |}
        else {| aio := a'; clients := <[t := (S pc, w :: ws)]> (clients M);
                returned := returned M |}) →
  consistent jk this file work M'.
Proof.
  intros (Hacc & Hbytes & Hidle & Hhold) Hcl Hcs Hw Hc Hex ->.
  assert (Hpass : is_passive c = true).
  { pose proof (finish_calls_passive jk this w cs Hcs Hw) as Hall.
    rewrite Forall_lookup in Hall. by apply (Hall pc c). }
  destruct (aio_exec_passive t c (aio M) a' Hpass Hex) as (Hh' & Hs' & Hq').
  assert (Hnh : aio_holder (aio M) ≠ Some t).
  { intros Hh. destruct (Hhold t Hh) as (pc' & m & ws' & cs' & Hcl' & _).
    rewrite Hcl in Hcl'. injection Hcl' as _ Hw' _. by destruct (Hw m). }
  assert (Hpart : ∀ v h,
    partial_line jk this {| aio := a'; clients := <[t := v]> (clients M); returned := h |}
    = partial_line jk this M).
  { intros v h. unfold partial_line. cbn [aio clients]. rewrite Hh'.
    destruct (aio_holder (aio M)) as [t'|]; [|done].
    rewrite lookup_insert_ne by (by intros ->). done. }
  assert (Hlogs : logs (returned M ++ [(t, w)]) = logs (returned M)).
  { rewrite logs_snoc. destruct w as [m| |]; [by destruct (Hw m)| |]; apply app_nil_r. }
  case_bool_decide as Hlast; (split; [|split; [|split]]).
  - intros t'. cbn [returned]. rewrite by_thread_snoc, todo_insert. cbn [snd].
    case_bool_decide as Ht.
    + subst t'. rewrite <- (Hacc t). unfold todo. rewrite Hcl. by rewrite <- app_assoc.
    + rewrite app_nil_r. apply Hacc.
  - rewrite Hpart. cbn [aio returned]. by rewrite Hs', Hq', Hlogs.
  - intros t' pc' m ws' Hcl' Hnh'. cbn [aio clients] in Hcl', Hnh'. rewrite Hh' in Hnh'.
    destruct (decide (t = t')) as [<-|Hne].
    + rewrite lookup_insert_eq in Hcl'. congruence.
    + rewrite lookup_insert_ne in Hcl' by done. by apply (Hidle t' pc' m ws').
  - intros t' Hh. cbn [aio clients] in Hh |- *. rewrite Hh' in Hh.
    destruct (decide (t = t')) as [<-|Hne]; [done|].
    rewrite lookup_insert_ne by done. by apply Hhold.
  - intros t'. rewrite todo_insert. cbn [snd returned]. case_bool_decide as Ht.
    + subst t'. rewrite <- (Hacc t). unfold todo. by rewrite Hcl.
    + apply Hacc.
  - rewrite Hpart. cbn [aio returned]. by rewrite Hs', Hq'.
  - intros t' pc' m ws' Hcl' Hnh'. cbn [aio clients] in Hcl', Hnh'. rewrite Hh' in Hnh'.
    destruct (decide (t = t')) as [<-|Hne].
    + rewrite lookup_insert_eq in Hcl'. injection Hcl' as _ Hw' _. by destruct (Hw m).
    + rewrite lookup_insert_ne in Hcl' by done. by apply (Hidle t' pc' m ws').
  - intros t' Hh. cbn [aio clients] in Hh |- *. rewrite Hh' in Hh.
    destruct (decide (t = t')) as [<-|Hne]; [done|].
    rewrite lookup_insert_ne by done. by apply Hhold.
Qed.

(** A call made inside [Log]: the lock is taken by a thread that is not
    part-way through a line, the writes extend the line of the thread inside
    the lock, and the unlock completes it. *)
Lemma log_consistent jk this file work t pc m ws cs c a' M M' :
  consistent jk this file work M →
  clients M !! t = Some (pc, DoLog m :: ws) → calls_of jk this (DoLog m) = Ok cs →
  cs !! pc = Some c → aio_exec t c (aio M) = Some a' →
  M' = (if bool_decide (S pc = length cs)
        then {| aio := a'; clients := <[t := (0, ws)]> (clients M);
                returned := returned M ++ [(t, DoLog m)] |}
        else {| aio := a'; clients := <[t := (S pc, DoLog m :: ws)]> (clients M);
                returned := returned M |}) →
  consistent jk this file work M'.
Proof.
  intros (Hacc & Hbytes & Hidle & Hhold) Hcl Hcs Hc Hex ->.
  destruct (CLoggerAsync_Log_shape jk this m cs Hcs) as (writes & Hshape & Hw & Hpay).
  assert (Hlen : length cs = S (S (length writes))).
  { rewrite Hshape. cbn [length]. rewrite length_app. cbn [length]. lia. }
  assert (Hothers : ∀ h t' pc' m' ws' v,
    <[t := v]> (clients M) !! t' = Some (pc', DoLog m' :: ws') → t ≠ t' →
    aio_holder (aio M) = h → (h = None ∨ h = Some t) → pc' = 0).
  { intros h t' pc' m' ws' v Hcl' Hne Hh Hcase. rewrite lookup_insert_ne in Hcl' by done.
    apply (Hidle t' pc' m' ws' Hcl'). rewrite Hh. destruct Hcase as [->| ->]; congruence. }
  assert (Htodo : ∀ h a v t', v.2 = DoLog m :: ws →
    by_thread t' (returned M)
    ++ todo {| aio := a; clients := <[t := v]> (clients M); returned := h |} t'
    = default [] (work !! t')).
  { intros h a v t' Hv. rewrite todo_insert. case_bool_decide as Ht; [|apply Hacc].
    subst t'. rewrite Hv, <- (Hacc t). unfold todo. by rewrite Hcl. }
  rewrite Hshape in Hc.
  destruct (Log_call_position writes pc c Hw Hc)
    as [(-> & ->) | [(Hpos & Hlt & Hwr) | (Hpos & Hlast & -> & Htake)]];
    rewrite <- Hshape in *.
  - (* aio_lock *)
    cbn [aio_exec] in Hex. destruct (aio_holder (aio M)) as [t0|] eqn:Hh; [done|].
    injection Hex as <-. rewrite bool_decide_eq_false_2 by lia.
    split; [|split; [|split]].
    + intros t'. by apply Htodo.
    + rewrite (partial_line_held jk this _ t 1 (DoLog m) ws cs); try done.
      2: { cbn [clients]. by rewrite lookup_insert_eq. }
      rewrite (partial_line_free jk this M Hh) in Hbytes.
      rewrite Hshape. exact Hbytes.
    + intros t' pc' m' ws' Hcl' Hnh. cbn [aio clients aio_holder aio_set_holder] in Hcl', Hnh.
      destruct (decide (t = t')) as [<-|Hne]; [done|].
      by apply (Hothers None t' pc' m' ws' _ Hcl'); auto.
    + intros t' [= <-]. exists 1, m, ws, cs. cbn [clients]. rewrite lookup_insert_eq.
      repeat split; try done; lia.
  - (* a write *)
    destruct (decide (aio_holder (aio M) = Some t)) as [Hh|Hnh];
      [|pose proof (Hidle t pc m ws Hcl Hnh); lia].
    destruct (aio_exec_write t c (aio M) a' Hwr Hex) as (Hh' & Hs' & Hq').
    rewrite bool_decide_eq_false_2 by lia.
    split; [|split; [|split]].
    + intros t'. by apply Htodo.
    + rewrite (partial_line_held jk this _ t (S pc) (DoLog m) ws cs); try done.
      2: { cbn [aio]. by rewrite Hh'. }
      2: { cbn [clients]. by rewrite lookup_insert_eq. }
      rewrite (partial_line_held jk this M t pc (DoLog m) ws cs) in Hbytes by done.
      rewrite (take_S_r cs pc c Hc), payload_app.
      cbn [aio returned]. rewrite Hs', Hq', app_assoc, Hbytes.
      unfold payload at 3. cbn. by rewrite app_nil_r, <- !app_assoc.
    + intros t' pc' m' ws' Hcl' Hnh. cbn [aio clients] in Hcl', Hnh. rewrite Hh', Hh in Hnh.
      destruct (decide (t = t')) as [<-|Hne]; [done|].
      by apply (Hothers (Some t) t' pc' m' ws' _ Hcl'); auto.
    + intros t' Hh''. cbn [aio] in Hh''. rewrite Hh', Hh in Hh''. injection Hh'' as <-.
      exists (S pc), m, ws, cs. cbn [clients]. rewrite lookup_insert_eq.
      repeat split; try done; lia.
  - (* aio_unlock *)
    destruct (decide (aio_holder (aio M) = Some t)) as [Hh|Hnh];
      [|pose proof (Hidle t pc m ws Hcl Hnh); lia].
    injection Hex as <-. rewrite bool_decide_eq_true_2 by done.
    split; [|split; [|split]].
    + intros t'. cbn [returned]. rewrite by_thread_snoc, todo_insert. cbn [snd].
      case_bool_decide as Ht.
      * subst t'. rewrite <- (Hacc t). unfold todo. rewrite Hcl. by rewrite <- app_assoc.
      * rewrite app_nil_r. apply Hacc.
    + rewrite partial_line_free by done.
      rewrite (partial_line_held jk this M t pc (DoLog m) ws cs) in Hbytes by done.
      rewrite Htake, Hpay in Hbytes.
      cbn [aio returned aio_stream aio_queue aio_set_holder].
      rewrite Hbytes, logs_snoc, fmap_app, concat_app. cbn.
      by rewrite !app_nil_r.
    + intros t' pc' m' ws' Hcl' _. cbn [clients] in Hcl'.
      destruct (decide (t = t')) as [<-|Hne].
      * rewrite lookup_insert_eq in Hcl'. congruence.
      * by apply (Hothers (Some t) t' pc' m' ws' _ Hcl'); auto.
    + intros t' Hh'. done.
Qed.

(** Every step keeps the machine consistent. *)
Lemma step_consistent jk this file work p M M' :
  consistent jk this file work M → step jk this p M = Some M' →
  consistent jk this file work M'.
Proof.
  intros Hinv Hstep. destruct p as [t|n]; cbn [step] in Hstep.
  2: { injection Hstep as <-. by apply worker_consistent. }
  destruct (clients M !! t) as [[pc [|w ws]]|] eqn:Hcl; try done.
  destruct (calls_of jk this w) as [cs| | |] eqn:Hcs; try done.
  destruct (cs !! pc) as [c|] eqn:Hc; [|done]. cbn [mbind option_bind] in Hstep.
  destruct (aio_exec t c (aio M)) as [a'|] eqn:Hex; [|done].
  cbn [mbind option_bind] in Hstep.
  assert (HM' : M' = (if bool_decide (S pc = length cs)
        then {| aio := a'; clients := <[t := (0, ws)]> (clients M);
                returned := returned M ++ [(t, w)] |}
        else {| aio := a'; clients := <[t := (S pc, w :: ws)]> (clients M);
                returned := returned M |})).
  { by case_bool_decide; injection Hstep as <-. }
  destruct w as [m| |].
  - by apply (log_consistent jk this file work t pc m ws cs c a' M M').
  - by apply (passive_consistent jk this file work t pc DoGlobalFinish ws cs c a' M M').
  - by apply (passive_consistent jk this file work t pc DoDestroy ws cs c a' M M').
Qed.

Lemma boot_consistent jk this file work :
  consistent jk this file work (boot file work).
Proof.
  split; [|split; [|split]]; try done.
  - intros t. unfold todo, boot. cbn. rewrite lookup_fmap. by destruct (work !! t).
  - intros t pc m ws Hcl _. cbn in Hcl. rewrite lookup_fmap in Hcl.
    destruct (work !! t); [|done]. by injection Hcl as <- _.
Qed.

Lemma exec_consistent jk this file work sched M M' :
  consistent jk this file work M → exec jk this sched M = Some M' →
  consistent jk this file work M'.
Proof.
  revert M. induction sched as [|p sched IH]; intros M Hinv Hexec.
  - by injection Hexec as <-.
  - cbn [exec] in Hexec. destruct (step jk this p M) as [M1|] eqn:Hstep; [|done].
    apply (IH M1); [|done]. by apply (step_consistent jk this file work p M).
Qed.

(** The worker can always empty the queue, after which a pending [aio_wait]
    returns. *)
Lemma aio_wait_can_return jk this M t :
  next_call jk this M t = Some aio_wait →
  ∃ M', exec jk this [Worker (length (aio_queue (aio M))); Run t] M = Some M'
        ∧ aio_queue (aio M') = [].
Proof.
  intros Hnext. unfold next_call in Hnext. cbn [exec step mbind option_bind clients aio].
  destruct (clients M !! t) as [[pc [|w ws]]|] eqn:Hcl; try done.
  destruct (calls_of jk this w) as [cs| | |] eqn:Hcs; try done.
  rewrite Hnext. cbn [mbind option_bind aio_exec aio_worker aio_queue].
  rewrite drop_all. cbn [mbind option_bind].
  case_bool_decide; eexists; (split; [reflexivity|]); cbn; apply drop_all.
Qed.

(** ** From the call of [GlobalFinish] or of the destructor to its return *)

(** Both calls wait for the queue: [aio_wait] is among the calls of each. *)
Lemma finish_calls_wait jk this w :
  w = DoGlobalFinish ∨ w = DoDestroy →
  ∃ cs, calls_of jk this w = Ok cs ∧ aio_wait ∈ cs
        ∧ Forall (λ c, is_passive c = true) cs.
Proof.
  intros [-> | ->]; eexists; (split; [reflexivity|]);
    unfold CLoggerAsync_GlobalFinish, CLoggerAsync_destroy;
    destruct (m_Close this); cbn; (split; [set_solver|repeat constructor]).
Qed.

(** No call of a client touches the stream; only the worker appends to it. *)
Lemma aio_exec_stream t c a a' :
  aio_exec t c a = Some a' → aio_stream a' = aio_stream a.
Proof.
  destruct c; cbn [aio_exec]; repeat case_match; try done; by intros [= <-].
Qed.

(** One step of a client, spelled out. *)
Lemma step_run_inv jk this t M M' :
  step jk this (Run t) M = Some M' →
  ∃ pc w ws cs c a',
    clients M !! t = Some (pc, w :: ws) ∧ calls_of jk this w = Ok cs
    ∧ cs !! pc = Some c ∧ aio_exec t c (aio M) = Some a'
    ∧ M' = (if bool_decide (S pc = length cs)
            then {| aio := a'; clients := <[t := (0, ws)]> (clients M);
                    returned := returned M ++ [(t, w)] |}
            else {| aio := a'; clients := <[t := (S pc, w :: ws)]> (clients M);
                    returned := returned M |}).
Proof.
  intros Hstep. cbn [step] in Hstep.
  destruct (clients M !! t) as [[pc [|w ws]]|] eqn:Hcl; try done.
  destruct (calls_of jk this w) as [cs| | |] eqn:Hcs; try done.
  destruct (cs !! pc) as [c|] eqn:Hc; [|done]. cbn [mbind option_bind] in Hstep.
  destruct (aio_exec t c (aio M)) as [a'|] eqn:Hex; [|done].
  cbn [mbind option_bind] in Hstep.
  exists pc, w, ws, cs, c, a'. repeat (split; [done|]).
  by case_bool_decide; injection Hstep as <-.
Qed.

(** The stream and the list of returned calls only grow. *)
Lemma step_grows jk this p M M' :
  step jk this p M = Some M' →
  returned M `prefix_of` returned M'
  ∧ aio_stream (aio M) `prefix_of` aio_stream (aio M').
Proof.
  intros Hstep. destruct p as [t|n].
  - apply step_run_inv in Hstep as (pc & w & ws & cs & c & a' & _ & _ & _ & Hex & ->).
    apply aio_exec_stream in Hex.
    case_bool_decide; cbn [returned aio]; rewrite Hex; split; try done.
    by apply prefix_app_r.
  - cbn [step] in Hstep. injection Hstep as <-. cbn. split; [done|].
    by apply prefix_app_r.
Qed.

Lemma exec_grows jk this sched M M' :
  exec jk this sched M = Some M' →
  returned M `prefix_of` returned M'
  ∧ aio_stream (aio M) `prefix_of` aio_stream (aio M').
Proof.
  revert M. induction sched as [|p sched IH]; intros M Hexec.
  - by injection Hexec as <-.
  - cbn [exec] in Hexec. destruct (step jk this p M) as [M1|] eqn:Hstep; [|done].
    apply step_grows in Hstep as [? ?]. apply IH in Hexec as [? ?].
    split; by etrans.
Qed.

(** A step of the worker or of another thread leaves a thread where it is. *)
Lemma step_other jk this p t M M' :
  step jk this p M = Some M' → p ≠ Run t →
  clients M' !! t = clients M !! t
  ∧ by_thread t (returned M') = by_thread t (returned M).
Proof.
  intros Hstep Hp. destruct p as [t'|n].
  - assert (t' ≠ t) by congruence.
    apply step_run_inv in Hstep as (pc & w & ws & cs & c & a' & _ & _ & _ & _ & ->).
    case_bool_decide; cbn [returned clients]; rewrite lookup_insert_ne by done;
      split; try done.
    by rewrite by_thread_snoc, bool_decide_eq_false_2, app_nil_r.
  - cbn [step] in Hstep. by injection Hstep as <-.
Qed.

(** With the queue empty, the stream holds the line of every call of [Log]
    that has returned. *)
Lemma drained_stream jk this file work M h :
  consistent jk this file work M → aio_queue (aio M) = [] →
  h `prefix_of` returned M →
  (file ++ concat (rendered this <$> logs h)) `prefix_of` aio_stream (aio M).
Proof.
  intros (_ & Hbytes & _ & _) Hq [later Hh].
  rewrite Hq, app_nil_r in Hbytes. rewrite Hbytes, Hh.
  unfold logs. rewrite omap_app, fmap_app, concat_app.
  eexists. by rewrite <- !app_assoc.
Qed.

(** A thread that returns from a call whose [aio_wait] is still ahead has
    gone through that [aio_wait]: the lines of the calls of [Log] that had
    returned by then are in the stream, and stay there. *)
Lemma finish_call_drains jk this file work t w ws cs h :
  calls_of jk this w = Ok cs →
  ∀ sched M M' pc,
    consistent jk this file work M → h `prefix_of` returned M →
    clients M !! t = Some (pc, w :: ws) →
    (file ++ concat (rendered this <$> logs h)) `prefix_of` aio_stream (aio M)
      ∨ aio_wait ∈ drop pc cs →
    exec jk this sched M = Some M' →
    by_thread t (returned M') ≠ by_thread t (returned M) →
    (file ++ concat (rendered this <$> logs h)) `prefix_of` aio_stream (aio M').
Proof.
  intros Hcs. induction sched as [|p sched IH]; intros M M' pc Hinv Hh Hcl Hgoal Hexec Hret.
  - by injection Hexec as <-.
  - cbn [exec] in Hexec. destruct (step jk this p M) as [M1|] eqn:Hstep; [|done].
    pose proof (step_consistent jk this file work p M M1 Hinv Hstep) as Hinv1.
    pose proof (step_grows jk this p M M1 Hstep) as [Hgrow Hmore].
    cbn [mbind option_bind] in Hexec.
    assert (Hp : p = Run t ∨ p ≠ Run t).
    { destruct p as [t'|n]; [|by right].
      destruct (decide (t' = t)) as [->|]; [by left|right; congruence]. }
    destruct Hp as [->|Hp].
    + apply step_run_inv in Hstep
        as (pc' & w' & ws' & cs' & c & a' & Hcl' & Hcs' & Hc & Hex & HM1).
      rewrite Hcl in Hcl'. injection Hcl' as <- <- <-.
      rewrite Hcs in Hcs'. injection Hcs' as <-.
      assert (Hgoal' :
        (file ++ concat (rendered this <$> logs h)) `prefix_of` aio_stream (aio M)
        ∨ aio_wait ∈ drop (S pc) cs).
      { destruct Hgoal as [Hgoal|Hin]; [by left|].
        rewrite (drop_S _ _ _ Hc), elem_of_cons in Hin.
        destruct Hin as [<-|Hin]; [left|by right].
        apply (drained_stream jk this file work); [done| |done].
        cbn [aio_exec] in Hex. by destruct (aio_queue (aio M)). }
      case_bool_decide as Hlast.
      * destruct Hgoal' as [Hgoal'|Hin].
        -- apply exec_grows in Hexec as [_ Hmore']. by do 2 (etrans; [|done]).
        -- rewrite drop_ge in Hin by lia. by apply elem_of_nil in Hin.
      * apply (IH M1 M' (S pc)); try done.
        -- by etrans.
        -- subst M1. cbn [clients]. by rewrite lookup_insert_eq.
        -- destruct Hgoal' as [Hgoal'|Hin]; [left; by etrans|by right].
        -- by subst M1.
    + apply (step_other jk this p t) in Hstep as [Hcl1 Hby1]; [|done].
      apply (IH M1 M' pc); try done.
      * by etrans.
      * by rewrite Hcl1.
      * destruct Hgoal as [Hgoal|Hin]; [left; by etrans|by right].
      * by rewrite Hby1.
Qed.

(** A call of [GlobalFinish] or of the destructor can always return: let the
    worker empty the queue before each of its calls. *)
Lemma finish_call_returns jk this t w ws cs :
  calls_of jk this w = Ok cs → Forall (λ c, is_passive c = true) cs →
  ∀ k pc M,
    length cs = S (pc + k) → clients M !! t = Some (pc, w :: ws) →
    ∃ sched M', exec jk this sched M = Some M'
                ∧ returned M' = returned M ++ [(t, w)].
Proof.
  intros Hcs Hpassive. induction k as [|k IH]; intros pc M Hlen Hcl.
  all: destruct (lookup_lt_is_Some_2 cs pc) as [c Hc]; [lia|].
  all: assert (Hex : ∃ a', aio_exec t c (aio_worker (length (aio_queue (aio M))) (aio M))
                           = Some a').
  1,3: rewrite Forall_lookup in Hpassive; specialize (Hpassive pc c Hc);
       destruct c; try done; cbn [aio_exec aio_worker aio_queue];
       rewrite ?drop_all; by eexists.
  all: destruct Hex as [a' Hex].
  - exists [Worker (length (aio_queue (aio M))); Run t]. eexists.
    cbn [exec step mbind option_bind clients aio returned].
    rewrite Hcl, Hcs, Hc. cbn [mbind option_bind]. rewrite Hex. cbn [mbind option_bind].
    rewrite bool_decide_eq_true_2 by lia. done.
  - edestruct (IH (S pc)
      {| aio := a'; clients := <[t := (S pc, w :: ws)]> (clients M);
         returned := returned M |}) as (sched & M' & Hexec & Hret).
    { lia. } { cbn [clients]. by rewrite lookup_insert_eq. }
    exists (Worker (length (aio_queue (aio M))) :: Run t :: sched), M'.
    split; [|done].
    cbn [exec step mbind option_bind clients aio returned].
    rewrite Hcl, Hcs, Hc. cbn [mbind option_bind]. rewrite Hex. cbn [mbind option_bind].
    rewrite bool_decide_eq_false_2 by lia. done.
Qed.

(** C7. Drain on finish, for any number of threads and any interleaving of
    their [ASYNCIO] calls with each other and with the worker.  Take any
    reachable state in which a thread is about to call [GlobalFinish] or the
    destructor.  The call is an [aio_close] if the sink owns the file, then
    an [aio_wait] (then, in the destructor, an [aio_free]); it can return;
    and in every state reached after it has returned (the thread's list of
    returned calls is no longer what it was), the stream holds, after the file's initial
    contents, the line of every [Log] call that had returned when
    [GlobalFinish] or the destructor was called, once each and in the order
    those calls returned.  What follows these lines in the stream and in
    the queue is the lines of the calls of [Log] that returned later and
    what a thread still inside the lock has queued; and per thread, the
    returned calls followed by the pending ones are the calls the thread
    was given, in its order. *)
Theorem async_sink_drains jk this file work sched M t w ws :
  exec jk this sched (boot file work) = Some M →
  clients M !! t = Some (0, w :: ws) →
  w = DoGlobalFinish ∨ w = DoDestroy →
  calls_of jk this w
    = Ok ((if m_Close this then [aio_close] else []) ++ [aio_wait]
          ++ (match w with DoDestroy => [aio_free] | _ => [] end))
  ∧ (∃ sched' M', exec jk this sched' M = Some M'
                  ∧ returned M' = returned M ++ [(t, w)])
  ∧ (∀ sched' M',
       exec jk this sched' M = Some M' →
       by_thread t (returned M') ≠ by_thread t (returned M) →
       (file ++ concat (rendered this <$> logs (returned M)))
         `prefix_of` aio_stream (aio M')
       ∧ returned M `prefix_of` returned M'
       ∧ aio_stream (aio M') ++ aio_queue (aio M')
         = file ++ concat (rendered this <$> logs (returned M'))
           ++ partial_line jk this M'
       ∧ (∀ t', by_thread t' (returned M') ++ todo M' t' = default [] (work !! t'))).
Proof.
  intros Hexec Hcl Hw.
  pose proof (exec_consistent jk this file work sched _ M
                (boot_consistent jk this file work) Hexec) as Hinv.
  destruct (finish_calls_wait jk this w Hw) as (cs & Hcs & Hwait & Hpassive).
  split; [by destruct Hw as [-> | ->]|]. split.
  - apply (finish_call_returns jk this t w ws cs Hcs Hpassive (length cs - 1) 0); [|done].
    destruct cs; [by apply elem_of_nil in Hwait|cbn; lia].
  - intros sched' M' Hexec' Hret.
    pose proof (exec_consistent jk this file work sched' M M' Hinv Hexec')
      as (Hacc & Hbytes & _ & _).
    split; [|split; [by apply (exec_grows jk this sched')|by split]].
    apply (finish_call_drains jk this file work t w ws cs (returned M) Hcs sched' M M' 0);
      try done.
    by right.
Qed.

Lemma async_sink_drains_witness :
  (∃ M M',
     exec sample_junk (log_logger_stdout false) sample_schedule (boot [] sample_work) = Some M
     ∧ exec sample_junk (log_logger_stdout false) [Run 1] M = Some M'
     ∧ ([] ++ concat (rendered (log_logger_stdout false) <$> logs (returned M)))
         `prefix_of` aio_stream (aio M'))
  ∧ (∃ M M',
       exec sample_junk log_logger_file closing_schedule (boot [] closing_work) = Some M
       ∧ exec sample_junk log_logger_file closing_rest M = Some M'
       ∧ ([] ++ concat (rendered log_logger_file <$> logs (returned M)))
           `prefix_of` aio_stream (aio M')).
Proof.
  split.
  - assert (∃ M M',
       exec sample_junk (log_logger_stdout false) sample_schedule (boot [] sample_work)
         = Some M
       ∧ clients M !! 1 = Some (0, [DoGlobalFinish])
       ∧ exec sample_junk (log_logger_stdout false) [Run 1] M = Some M'
       ∧ by_thread 1 (returned M') ≠ by_thread 1 (returned M))
      as (M & M' & E1 & E2 & E3 & E4).
    { eexists _, _. split; [vm_compute; reflexivity|].
      split; [vm_compute; reflexivity|]. split; [vm_compute; reflexivity|].
      vm_compute. discriminate. }
    exists M, M'. split; [exact E1|]. split; [exact E3|].
    destruct (async_sink_drains sample_junk (log_logger_stdout false) [] sample_work
                sample_schedule M 1 DoGlobalFinish [] E1 E2 (or_introl eq_refl))
      as (_ & _ & Hafter).
    exact (proj1 (Hafter [Run 1] M' E3 E4)).
  - assert (∃ M M',
       exec sample_junk log_logger_file closing_schedule (boot [] closing_work) = Some M
       ∧ clients M !! 1 = Some (0, [DoDestroy])
       ∧ exec sample_junk log_logger_file closing_rest M = Some M'
       ∧ by_thread 1 (returned M') ≠ by_thread 1 (returned M))
      as (M & M' & E1 & E2 & E3 & E4).
    { eexists _, _. split; [vm_compute; reflexivity|].
      split; [vm_compute; reflexivity|]. split; [vm_compute; reflexivity|].
      vm_compute. discriminate. }
    exists M, M'. split; [exact E1|]. split; [exact E3|].
    destruct (async_sink_drains sample_junk log_logger_file [] closing_work
                closing_schedule M 1 DoDestroy [] E1 E2 (or_intror eq_refl))
      as (_ & _ & Hafter).
    exact (proj1 (Hafter closing_rest M' E3 E4)).
Defined.

(** The sample run, byte for byte: two threads, four lines, none lost and
    none torn, each thread's lines in the order it logged them. *)
Example sample_run_stream :
  ∃ M', exec sample_junk (log_logger_stdout false) (sample_schedule ++ [Run 1])
          (boot [] sample_work) = Some M'
    ∧ aio_stream (aio M')
      = ESC :: bytes "[39m[2022-04-22 10:00:00][test]: hello" ++ newline ++
        ESC :: bytes "[38;2;255;128;7m[2022-04-22 10:00:00][test]: hello" ++ newline ++
        ESC :: bytes "[38;2;255;128;7m[2022-04-22 10:00:00][test]: hello" ++ newline ++
        ESC :: bytes "[39m[2022-04-22 10:00:00][test]: hello" ++ newline
    ∧ (λ tw, tw.1) <$> returned M' = [1; 2; 1; 2; 1]
    ∧ todo M' 1 = [] ∧ todo M' 2 = [].
Proof.
  eexists. split; [vm_compute; reflexivity|].
  split; [vm_compute; reflexivity|]. split; [vm_compute; reflexivity|].
  split; vm_compute; reflexivity.
Qed.

(** The run against the file sink, byte for byte: the destructor closes the
    file, waits and frees the handle; thread 1's line is in the file when it
    returns, while thread 2's line is still in the queue, the lock held. *)
Example closing_run_stream :
  ∃ M', exec sample_junk log_logger_file (closing_schedule ++ closing_rest)
          (boot [] closing_work) = Some M'
    ∧ aio_stream (aio M') = bytes "[2022-04-22 10:00:00][test]: hello" ++ newline
    ∧ aio_queue (aio M') = bytes "[2022-04-22 10:00:00][test]: hello"
    ∧ aio_holder (aio M') = Some 2
    ∧ aio_closing (aio M') = true ∧ aio_freed (aio M') = true
    ∧ returned M' = [(1, DoLog sample_record); (1, DoDestroy)].
Proof.
  eexists. split; [vm_compute; reflexivity|].
  repeat (split; [vm_compute; reflexivity|]). vm_compute; reflexivity.
Qed.

(** * Further properties of the registry *)

(** What [log_set_scope_logger] leaves in the thread's variable. *)
Lemma log_set_scope_logger_spec (t : tid) (logger : option ptr) (st : State) :
  let st' := log_set_scope_logger t logger st in
  scope_logger (tls st' t)
  = match logger with Some p => Some p | None => global_logger st end
  ∧ global_logger st' = global_logger st
  ∧ exit_hooks st' = exit_hooks st
  ∧ events st' = events st
  ∧ in_logger (tls st' t) = in_logger (tls st t)
  ∧ (∀ t', t ≠ t' → tls st' t' = tls st t').
Proof.
  cbv zeta. unfold log_set_scope_logger. cbn zeta.
  destruct (cache_global t (set_scope_logger t logger st)) as (Ht & Hother & Hg & Hh & He).
  cbn zeta in Ht, Hother, Hg, Hh, He.
  match type of Ht with
  | tls ?s _ = _ => generalize dependent s; intros st' Ht Hother Hg Hh He
  end.
  assert (Heff : effective_sink t (set_scope_logger t logger st)
                 = match logger with Some p => Some p | None => global_logger st end).
  { unfold effective_sink. rewrite tls_set_scope_logger. cbn [scope_logger]. by destruct logger. }
  rewrite Heff, tls_set_scope_logger in Ht. cbn [in_logger] in Ht.
  rewrite Ht. repeat split; try done.
  intros t' Hne. rewrite Hother by done. by apply tls_set_scope_logger_ne.
Qed.

(** X1. Setting the thread's scope logger and reading it back: an override
    is what the thread then resolves to, whatever the global logger;
    clearing the override falls back to the global logger, set or not; and
    neither the global logger, the exit functions, the reentrancy flag of
    the thread nor any other thread's variables are touched. *)
Theorem scope_logger_set_get (t : tid) (logger : option ptr) (st : State) :
  let st' := log_set_scope_logger t logger st in
  (log_get_scope_logger t st').1
  = match logger with Some p => Some p | None => global_logger st end
  ∧ global_logger st' = global_logger st
  ∧ exit_hooks st' = exit_hooks st
  ∧ events st' = events st
  ∧ in_logger (tls st' t) = in_logger (tls st t)
  ∧ (∀ t', t ≠ t' → tls st' t' = tls st t').
Proof.
  cbv zeta.
  destruct (log_set_scope_logger_spec t logger st) as (Hsc & Hg & Hrest).
  cbv zeta in Hsc, Hg, Hrest.
  destruct (log_get_scope_logger_spec t (log_set_scope_logger t logger st)) as (-> & _).
  split; [|by split].
  unfold effective_sink. rewrite Hsc, Hg.
  destruct logger; [done|]. by destruct (global_logger st).
Qed.

(** X2. The scoped-override idiom: read the current logger, install another
    one, put the saved one back.  Afterwards the thread resolves to the sink
    it resolved to before, and nothing else has changed. *)
Theorem scope_logger_save_restore (t : tid) (temporary : option ptr) (st : State) :
  let saved := (log_get_scope_logger t st).1 in
  let st1 := (log_get_scope_logger t st).2 in
  let st2 := log_set_scope_logger t temporary st1 in
  let st3 := log_set_scope_logger t saved st2 in
  saved = effective_sink t st
  ∧ effective_sink t st3 = effective_sink t st
  ∧ global_logger st3 = global_logger st
  ∧ exit_hooks st3 = exit_hooks st
  ∧ in_logger (tls st3 t) = in_logger (tls st t)
  ∧ (∀ t', t ≠ t' → tls st3 t' = tls st t').
Proof.
  intros saved st1 st2 st3.
  pose proof (log_get_scope_logger_spec t st) as (Hsaved & Hg1 & Hh1).
  fold saved in Hsaved. fold st1 in Hg1, Hh1.
  assert (Hst1 : in_logger (tls st1 t) = in_logger (tls st t)
                 ∧ ∀ t', t ≠ t' → tls st1 t' = tls st t').
  { subst st1. unfold log_get_scope_logger. cbn zeta. cbn [snd].
    destruct (cache_global t st) as (Ht & Hother & _). cbn zeta in Ht, Hother.
    rewrite Ht. done. }
  destruct Hst1 as [Hin1 Hother1].
  destruct (log_set_scope_logger_spec t temporary st1) as (_ & Hg2 & Hh2 & _ & Hin2 & Hother2).
  fold st2 in Hg2, Hh2, Hin2, Hother2.
  destruct (log_set_scope_logger_spec t saved st2) as (Hsc3 & Hg3 & Hh3 & _ & Hin3 & Hother3).
  fold st3 in Hsc3, Hg3, Hh3, Hin3, Hother3.
  split; [done|]. split.
  - unfold effective_sink at 1. rewrite Hsc3, Hg3, Hg2, Hg1, Hsaved.
    unfold effective_sink. destruct (scope_logger (tls st t)); [done|].
    by destruct (global_logger st).
  - rewrite Hg3, Hg2, Hh3, Hh2, Hin3, Hin2. repeat split; try done.
    intros t' Hne. rewrite Hother3, Hother2 by done. by apply Hother1.
Qed.

(** Asking for the scope logger twice: the second call changes nothing. *)
Lemma log_get_scope_logger_idem (t : tid) (st : State) :
  log_get_scope_logger t (log_get_scope_logger t st).2 = log_get_scope_logger t st.
Proof.
  unfold log_get_scope_logger. cbn zeta. cbn [snd].
  destruct (scope_logger (tls st t)) as [p|] eqn:Hsc; rewrite ?Hsc.
  - done.
  - rewrite tls_set_scope_logger. cbn [scope_logger].
    change (global_logger (set_scope_logger t (global_logger st) st)) with (global_logger st).
    destruct (global_logger st) as [g|] eqn:Hg.
    + by rewrite tls_set_scope_logger.
    + rewrite !tls_set_scope_logger. cbn [scope_logger in_logger]. f_equal.
      unfold set_scope_logger at 1. rewrite tls_set_scope_logger. cbn [in_logger].
      unfold set_scope_logger, set_tls. cbn. by rewrite insert_insert_eq.
Qed.

(** X3. [log_get_scope_logger] names the sink of the thread's next record:
    after it returned [Some p] a call of the entry point on that thread
    (outside any other call) hands its record to [p]; after it returned
    [nullptr] the call is dropped.  Asking twice gives the same answer and
    the second call changes nothing. *)
Theorem scope_logger_names_next_sink `{Build} `{Backends} fuel (t : tid) (c : LogCall)
    (st : State) :
  let answer := (log_get_scope_logger t st).1 in
  let st1 := (log_get_scope_logger t st).2 in
  in_logger (tls st t) = false →
  log_get_scope_logger t st1 = (answer, st1)
  ∧ match answer with
    | Some p => ∀ Msg, build_message c = Ok Msg →
        ∃ st', log_log_impl (S fuel) t c st1 = Ok st'
               ∧ events st' = events st ++ [EvLog p Msg]
    | None => ∃ st', log_log_impl (S fuel) t c st1 = Ok st' ∧ events st' = events st
    end.
Proof.
  intros answer st1 Hin.
  pose proof (log_get_scope_logger_spec t st) as (Hans & Hg1 & Hh1).
  fold answer in Hans. fold st1 in Hg1, Hh1.
  assert (Hst1 : tls st1 t = {| scope_logger := effective_sink t st; in_logger := false |}
                 ∧ events st1 = events st).
  { subst st1. unfold log_get_scope_logger. cbn zeta. cbn [snd].
    destruct (cache_global t st) as (Ht & _ & _ & _ & He). cbn zeta in Ht, He.
    rewrite Ht, Hin. done. }
  destruct Hst1 as [Ht1 He1].
  assert (Heff1 : effective_sink t st1 = answer).
  { unfold effective_sink at 1. rewrite Ht1, Hg1. cbn [scope_logger]. rewrite Hans.
    unfold effective_sink. destruct (scope_logger (tls st t)); [done|].
    by destruct (global_logger st). }
  split.
  - subst st1 answer. rewrite log_get_scope_logger_idem.
    by destruct (log_get_scope_logger t st).
  - destruct answer as [p|].
    + intros Msg HMsg.
      destruct (log_log_impl_delivers fuel t c st1 p Msg) as (st' & E & Hev & _); try done.
      { by rewrite Ht1. }
      exists st'. by rewrite <- He1.
    + destruct (log_log_impl_no_sink fuel t c st1) as (st' & E & _ & _ & _ & Hev); try done.
      { by rewrite Ht1. }
      exists st'. by rewrite <- He1.
Qed.

Lemma scope_logger_names_next_sink_witness :
  ∃ Msg st',
    @build_message build_small (sample_call "test" "hello") = Ok Msg
    ∧ (log_get_scope_logger 0 published).1 = Some 7
    ∧ @log_log_impl build_small quiet 1 0 (sample_call "test" "hello")
        (log_get_scope_logger 0 published).2 = Ok st'
    ∧ events st' = [EvLog 7 Msg].
Proof.
  destruct sample_message_built as (Msg & HMsg & _).
  destruct (@scope_logger_names_next_sink build_small quiet 0 0
              (sample_call "test" "hello") published) as (_ & Hnext); [reflexivity|].
  destruct (Hnext Msg HMsg) as (st' & E & Hev).
  exists Msg, st'. auto.
Defined.

(** X4. Thread-locality of a call: whatever a call of the entry point on
    thread [t] does (dropped, sink-less or delivered, the sink logging
    again or not), it returns with the thread's reentrancy flag as it found
    it and leaves alone the global logger, the functions registered for
    exit and the variables of every other thread. *)
Theorem log_call_thread_local `{Build} `{Backends} fuel (t : tid) (c : LogCall)
    (st st' : State) :
  log_log_impl (S fuel) t c st = Ok st' →
  global_logger st' = global_logger st
  ∧ exit_hooks st' = exit_hooks st
  ∧ in_logger (tls st' t) = in_logger (tls st t)
  ∧ (∀ t', t ≠ t' → tls st' t' = tls st t').
Proof. apply log_log_impl_frame. Qed.

Lemma log_call_thread_local_witness :
  ∃ st', @log_log_impl build_small chatty 1 0 (sample_call "test" "hello") published = Ok st'
    ∧ global_logger st' = Some 7
    ∧ tls st' 1 = tls_init.
Proof.
  destruct sample_message_built as (Msg & HMsg & _).
  destruct (log_log_impl_delivers (H:=build_small) (H0:=chatty) 0 0
              (sample_call "test" "hello") published 7 Msg) as (st' & E & _);
    [reflexivity|reflexivity|exact HMsg|].
  destruct (@log_call_thread_local build_small chatty 0 0 _ published st' E)
    as (Hg & _ & _ & Hother).
  exists st'. split; [exact E|]. split; [by rewrite Hg|].
  by rewrite (Hother 1).
Defined.

(** The events of a call of the entry point: none, or one [Log]. *)
Lemma log_log_impl_events `{Build} `{Backends} fuel t c st st' :
  log_log_impl (S fuel) t c st = Ok st' →
  events st' = events st ∨ ∃ p Msg, events st' = events st ++ [EvLog p Msg].
Proof.
  intros Hrun. destruct (in_logger (tls st t)) eqn:Hin.
  { rewrite log_log_impl_nested in Hrun by done. left. by injection Hrun as <-. }
  destruct (effective_sink t st) as [p|] eqn:Heff.
  - destruct (log_log_impl_sink fuel t c st p Hin Heff) as (deliver & E & Hd).
    rewrite E in Hrun. destruct (build_message c) as [Msg| | |]; try done.
    rewrite bind_Ok in Hrun. injection Hrun as <-.
    right. exists p, Msg. apply Hd.
  - destruct (log_log_impl_no_sink fuel t c st Hin Heff) as (st'' & E & _ & _ & _ & He).
    rewrite E in Hrun. injection Hrun as <-. by left.
Qed.

(** What the registry operations keep: one exit function per published
    logger, none without, and no sink drained. *)
Lemma op_run_hooks `{Build} `{Backends} o st st' :
  passes_logger o → op_run o st = Ok st' →
  exit_hooks st = (if global_logger st is Some _ then [hook_log_global_logger_finish] else []) →
  finished (events st) = [] →
  exit_hooks st' = (if global_logger st' is Some _ then [hook_log_global_logger_finish] else [])
  ∧ finished (events st') = [].
Proof.
  intros Hpass Hrun Hh Hf. destruct o as [logger|t|t logger|t c]; cbn [op_run] in Hrun.
  - destruct (global_logger st) as [q|] eqn:Hg.
    + by rewrite (log_set_global_logger_again logger q) in Hrun.
    + rewrite log_set_global_logger_first in Hrun by done. injection Hrun as <-.
      destruct logger as [p|]; [|done]. cbn. by rewrite Hh.
  - replace st' with (log_get_scope_logger t st).2 by congruence.
    destruct (log_get_scope_logger_spec t st) as (_ & -> & ->). split; [done|].
    unfold log_get_scope_logger. cbn zeta. cbn [snd].
    destruct (cache_global t st) as (_ & _ & _ & _ & He). cbn zeta in He. by rewrite He.
  - replace st' with (log_set_scope_logger t logger st) by congruence.
    destruct (log_set_scope_logger_spec t logger st) as (_ & Hg & Hh' & He & _).
    cbv zeta in Hg, Hh', He. by rewrite Hg, Hh', He.
  - destruct (log_log_impl_frame 0 t c st st' Hrun) as (-> & -> & _). split; [done|].
    destruct (log_log_impl_events 0 t c st st' Hrun) as [->|(p & Msg & ->)]; [done|].
    unfold finished in *. rewrite omap_app, Hf. done.
Qed.

Lemma run_ops_hooks `{Build} `{Backends} ops st st' :
  Forall passes_logger ops → run_each op_run ops st = Ok st' →
  exit_hooks st = (if global_logger st is Some _ then [hook_log_global_logger_finish] else []) →
  finished (events st) = [] →
  exit_hooks st' = (if global_logger st' is Some _ then [hook_log_global_logger_finish] else [])
  ∧ finished (events st') = [].
Proof.
  intros Hpass. revert st. induction Hpass as [|o ops Ho Hops IH]; intros st Hrun Hh Hf.
  - by injection Hrun as <-.
  - cbn [run_each] in Hrun. destruct (op_run o st) as [st1| | |] eqn:E; try done.
    rewrite bind_Ok in Hrun.
    destruct (op_run_hooks o st st1 Ho E Hh Hf) as [Hh1 Hf1]. by apply (IH st1).
Qed.

(** X5. The global sink is drained exactly once, at exit: however the
    program used the registry (handing loggers, not [nullptr], to
    [log_set_global_logger]), no [GlobalFinish] has been called before
    exit, and normal exit calls [GlobalFinish] once on the published logger,
    or does nothing when no logger was ever published. *)
Theorem global_sink_drained_once `{Build} `{Backends} (ops : list Op) (st : State) :
  Forall passes_logger ops →
  run_each op_run ops initial = Ok st →
  finished (events st) = []
  ∧ process_exit st
    = Ok (match global_logger st with Some p => emit (EvFinish p) st | None => st end).
Proof.
  intros Hpass Hrun.
  destruct (run_ops_hooks ops initial st Hpass Hrun eq_refl eq_refl) as [Hh Hf].
  split; [done|]. unfold process_exit. rewrite Hh.
  destruct (global_logger st) as [p|] eqn:Hg; [|done].
  cbn [run_each run_hook]. unfold log_global_logger_finish. by rewrite Hg.
Qed.

Lemma global_sink_drained_once_witness :
  ∃ st, @run_each Op State (@op_run build_small quiet) sample_ops initial = Ok st
    ∧ process_exit st = Ok (emit (EvFinish 7) st).
Proof.
  eexists. split; [vm_compute; reflexivity|].
  refine (proj2 (@global_sink_drained_once build_small quiet sample_ops _ _ _)).
  - unfold sample_ops. repeat constructor.
  - vm_compute. reflexivity.
Defined.

(** * Further properties of the record *)

(** The two platform functions agree on a message that fits. *)
Lemma _vsnprintf_fits buf off n text :
  length text < n → _vsnprintf buf off n text = vsnprintf buf off n text.
Proof.
  intros Hfit. unfold _vsnprintf, vsnprintf. rewrite bool_decide_eq_true_2 by done.
  destruct n as [|m]; [lia|]. by rewrite take_ge by lia.
Qed.

(** A message that fits is stored in the same way by both branches. *)
Lemma build_message_same_when_fits (tsz ssz lsz : nat) (c : LogCall) :
  let windows := {| CONF_FAMILY_WINDOWS := true; TIMESTAMP_SIZE := tsz;
                    SYSTEM_SIZE := ssz; LINE_SIZE := lsz |} in
  let other := {| CONF_FAMILY_WINDOWS := false; TIMESTAMP_SIZE := tsz;
                  SYSTEM_SIZE := ssz; LINE_SIZE := lsz |} in
  0 < tsz → 0 < ssz → 0 < lsz →
  no_nul (clock c) → no_nul (sys c) →
  length (fmt_args c)
  < lsz - length (take (lsz - 1) (bytes "[" ++ take (tsz - 1) (clock c) ++ bytes "][" ++
                                  take (ssz - 1) (sys c) ++ bytes "]: ")) →
  @build_message windows c = @build_message other c.
Proof.
  intros windows other Hts Hsys Hline Hclock Htag Hfit.
  unfold build_message.
  cbn [CONF_FAMILY_WINDOWS TIMESTAMP_SIZE SYSTEM_SIZE LINE_SIZE windows other].
  destruct tsz as [|tm]; [lia|]. destruct ssz as [|sm]; [lia|]. destruct lsz as [|lm]; [lia|].
  rewrite !Nat.sub_succ, !Nat.sub_0_r in Hfit.
  set (ts := take tm (clock c)) in *. set (tag := take sm (sys c)) in *.
  cbn [str_timestamp_format str_copy str_format].
  destruct (bounded_copy (uninit (junk c) (S tm)) tm (clock c)) as (r1 & E1 & L1);
    [apply length_uninit|].
  destruct (bounded_copy (uninit (junk c) (S sm)) sm (sys c)) as (r2 & E2 & L2);
    [apply length_uninit|].
  rewrite E1, E2. fold ts tag.
  assert (Hnts : no_nul ts) by by apply no_nul_take.
  assert (Hntag : no_nul tag) by by apply no_nul_take.
  rewrite (str_length_terminated ts r1), !bind_Ok by done.
  rewrite (str_length_terminated tag r2), !bind_Ok by done.
  rewrite !take_app_length.
  destruct (bounded_copy (uninit (junk c) (S lm)) lm
              (bytes "[" ++ ts ++ bytes "][" ++ tag ++ bytes "]: ")) as (r3 & E3 & L3);
    [apply length_uninit|].
  rewrite E3.
  set (prefix := take lm (bytes "[" ++ ts ++ bytes "][" ++ tag ++ bytes "]: ")) in *.
  assert (Hnp : no_nul prefix) by by apply no_nul_take, no_nul_prefix.
  rewrite (str_length_terminated prefix r3), !bind_Ok by done.
  by rewrite _vsnprintf_fits.
Qed.

(** X6. The platform branch matters only for a message that does not fit:
    when the expansion is shorter than what is left of the line array after
    the prefix, a Windows build and any other build with the same array
    sizes fill [Msg] with the same bytes and lengths. *)
Theorem build_message_platform_independent (tsz ssz lsz : nat) (c : LogCall) :
  let windows := {| CONF_FAMILY_WINDOWS := true; TIMESTAMP_SIZE := tsz;
                    SYSTEM_SIZE := ssz; LINE_SIZE := lsz |} in
  let other := {| CONF_FAMILY_WINDOWS := false; TIMESTAMP_SIZE := tsz;
                  SYSTEM_SIZE := ssz; LINE_SIZE := lsz |} in
  0 < tsz → 0 < ssz → 0 < lsz →
  no_nul (clock c) → no_nul (sys c) →
  length (fmt_args c)
  < lsz - length (take (lsz - 1) (bytes "[" ++ take (tsz - 1) (clock c) ++ bytes "][" ++
                                  take (ssz - 1) (sys c) ++ bytes "]: ")) →
  @build_message windows c = @build_message other c.
Proof. apply build_message_same_when_fits. Qed.

Lemma build_message_platform_independent_witness :
  @build_message build_windows (sample_call "test" "hello")
  = @build_message build_posix (sample_call "test" "hello").
Proof.
  apply (build_message_platform_independent 80 32 4096 (sample_call "test" "hello"));
    try (cbn; lia); unfold no_nul; by apply (bool_decide_unpack _).
Defined.

(** X7. From the arguments of a call to the bytes on the stream, off
    Windows and with a line array that holds the longest prefix: the record
    the entry point builds is accepted by the asynchronous sink, whose calls
    on the handle are exactly one [aio_lock], one write of an escape sequence
    if it writes to a truecolor terminal (the colour given to
    [log_log_color], or the default foreground for [log_log]), one write of
    the line "[timestamp][tag]: message", tag and message cut to their
    arrays, one write of a newline, and one [aio_unlock]; run on a free
    handle, these calls append the sequence, the line and the newline to the
    queue, leave the stream alone and leave the handle free. *)
Theorem log_call_bytes `{B : Build} (jk : nat → byte) (this : CLoggerAsync) (c : LogCall)
    (t : tid) (a : ASYNCIO) :
  well_sized B → CONF_FAMILY_WINDOWS = false →
  TIMESTAMP_SIZE + SYSTEM_SIZE + 4 < LINE_SIZE →
  no_nul (clock c) → no_nul (sys c) → no_nul (fmt_args c) →
  aio_holder a = None →
  let prefix := bytes "[" ++ take (TIMESTAMP_SIZE - 1) (clock c) ++ bytes "][" ++
                take (SYSTEM_SIZE - 1) (sys c) ++ bytes "]: " in
  let body := take (LINE_SIZE - 1 - length prefix) (fmt_args c) in
  let colour := if have_color c then truecolor_sequence (color c) else default_foreground in
  let escape := if m_AnsiTruecolor this then colour else [] in
  let calls := [aio_lock]
               ++ (if m_AnsiTruecolor this then [aio_write_unlocked colour] else [])
               ++ [aio_write_unlocked (prefix ++ body); aio_write_newline_unlocked;
                   aio_unlock] in
  ∃ Msg a',
    build_message c = Ok Msg
    ∧ CLoggerAsync_Log jk this Msg = Ok calls
    ∧ aio_run t calls a = Some a'
    ∧ aio_queue a' = aio_queue a ++ escape ++ prefix ++ body ++ newline
    ∧ aio_holder a' = None
    ∧ aio_stream a' = aio_stream a.
Proof.
  intros Hsized Hwin Hroom Hclock Hsys Htext Hfree prefix body colour escape calls.
  destruct (build_message_posix c Hsized Hwin Hclock Hsys Htext)
    as (Msg & HMsg & _ & Hhc & Hcol & _ & _ & _ & Hlen & _ & _ & _ & Hlt & Hline & _).
  assert (Hprefix : take (LINE_SIZE - 1)
                      (bytes "[" ++ take (TIMESTAMP_SIZE - 1) (clock c) ++ bytes "][" ++
                       take (SYSTEM_SIZE - 1) (sys c) ++ bytes "]: ") = prefix).
  { pose proof Hsized as (? & ? & ?).
    apply take_ge. unfold prefix. rewrite !length_app, !length_take.
    change (length (bytes "[")) with 1. change (length (bytes "][")) with 2.
    change (length (bytes "]: ")) with 3. lia. }
  rewrite Hprefix in Hline. fold body in Hline. clear Hprefix. clearbody body prefix.
  exists Msg. rewrite CLoggerAsync_Log_calls by lia.
  unfold ansi_prefix. rewrite Hhc, Hcol, Hline. fold colour. clearbody colour.
  destruct a as [h q st cl fr]. simpl in Hfree. subst h.
  subst escape calls. destruct (m_AnsiTruecolor this); eexists;
    (split; [done|]); (split; [reflexivity|]); (split; [reflexivity|]);
    cbn; rewrite <- ?app_assoc; repeat split; done.
Qed.

Lemma log_call_bytes_witness :
  ∃ a', aio_run 0
          [aio_lock; aio_write_unlocked (ESC :: bytes "[39m");
           aio_write_unlocked (bytes "[2022-04-22 10:00:00][test]: hello");
           aio_write_newline_unlocked; aio_unlock] (aio_new []) = Some a'
        ∧ aio_queue a'
          = ESC :: bytes "[39m[2022-04-22 10:00:00][test]: hello" ++ newline
        ∧ aio_holder a' = None.
Proof.
  assert (Hsized : well_sized build_posix) by (unfold well_sized; cbn; lia).
  assert (Hroom : @TIMESTAMP_SIZE build_posix + @SYSTEM_SIZE build_posix + 4
                  < @LINE_SIZE build_posix) by (cbn; lia).
  assert (Hclock : no_nul (clock (sample_call "test" "hello")))
    by (unfold no_nul; by apply (bool_decide_unpack _)).
  assert (Hsys : no_nul (sys (sample_call "test" "hello")))
    by (unfold no_nul; by apply (bool_decide_unpack _)).
  assert (Htext : no_nul (fmt_args (sample_call "test" "hello")))
    by (unfold no_nul; by apply (bool_decide_unpack _)).
  destruct (@log_call_bytes build_posix sample_junk (log_logger_stdout false)
              (sample_call "test" "hello") 0 (aio_new [])
              Hsized eq_refl Hroom Hclock Hsys Htext eq_refl)
    as (Msg & a' & _ & _ & Hrun & Hq & Hh & _).
  exists a'. split; [exact Hrun|]. split; [|exact Hh]. rewrite Hq. vm_compute. reflexivity.
Defined.

(** X8. The 32 bytes of [aAnsi] are always enough: for every colour the
    escape sequence has at most 19 bytes, so it is stored whole and
    terminated, and the sink reads back exactly that sequence. *)
Theorem ansi_buffer_never_truncated (jk : nat → byte) (m : CLogMessage) :
  let text := if m_HaveColor m then truecolor_sequence (m_Color m) else default_foreground in
  length (ansi_buffer jk m) = 32
  ∧ length text ≤ 19
  ∧ c_str (ansi_buffer jk m) = Some text.
Proof.
  cbv zeta. set (text := if m_HaveColor m then _ else _).
  assert (Htext : no_nul text ∧ length text ≤ 19).
  { subst text. destruct (m_HaveColor m); [apply truecolor_sequence_spec|].
    split; [|simpl; lia]. unfold no_nul. by apply (bool_decide_unpack _). }
  destruct Htext as [Hn Hl].
  assert (Hbuf : ansi_buffer jk m = poke (uninit jk 32) 0 (take 31 text ++ [NUL])).
  { unfold ansi_buffer, text. by destruct (m_HaveColor m). }
  destruct (bounded_copy (uninit jk 32) 31 text) as (rest & E & L); [apply length_uninit|].
  rewrite Hbuf, E, take_ge in * by lia.
  split; [rewrite length_app; simpl; lia|]. split; [done|].
  by apply c_str_terminated.
Qed.

(** * Further properties of the sinks *)

(** X9. [GlobalFinish] on the deferred sink neither flushes nor drops what
    is pending: called before a sink is attached it calls nothing and keeps
    the buffer, so that a later [Set] still replays every record in order;
    called after, it makes exactly one [GlobalFinish] call on the attached
    sink. *)
Theorem deferred_finish `{Objects W} (real : ptr) (pre : list CLogMessage) (s : Sys W) :
  (∃ v, run_each future_call ((FLog <$> pre) ++ [FGlobalFinish]) (CFutureLogger_new, s)
        = Ok ({| m_pLogger := None; m_aPending := v |}, s) ∧ data v = pre)
  ∧ run_each future_call
      ((FLog <$> pre) ++ [FGlobalFinish; FSet (Some real); FGlobalFinish])
      (CFutureLogger_new, s)
    = Ok ({| m_pLogger := Some real; m_aPending := {| data := []; capacity := 0 |} |},
          (s.1 ++ (EvLog real <$> pre) ++ [EvFinish real],
           GlobalFinish (deref real) (foldl (λ w m, Log (deref real) m w) s.2 pre))).
Proof.
  destruct (future_buffers pre CFutureLogger_new s eq_refl) as (v & Hbuf & Hv).
  simpl in Hv. split.
  - exists v. split; [|done]. by rewrite run_each_app, Hbuf, bind_Ok.
  - rewrite run_each_app, Hbuf, bind_Ok.
    cbn [run_each future_call CFutureLogger_GlobalFinish m_pLogger]. rewrite bind_Ok.
    rewrite CFutureLogger_Set_first, !bind_Ok, Hv, foldl_call_Log.
    cbn [CFutureLogger_GlobalFinish m_pLogger]. unfold call_GlobalFinish.
    cbn [fst snd]. by rewrite <- app_assoc.
Qed.

(** X10. Attaching [nullptr]: with nothing pending the exchange of null for
    null succeeds, the sink stays unattached and still buffers, and a later
    [Set] is accepted, the once-only assertion notwithstanding; with a
    record pending the replay loop calls [Log] through the null pointer. *)
Theorem deferred_set_nullptr `{Objects W} (real : ptr) (m : CLogMessage)
    (pre post : list CLogMessage) (s : Sys W) :
  CFutureLogger_Set None (CFutureLogger_new, s) = Ok (CFutureLogger_new, s)
  ∧ run_each future_call ([FSet None] ++ (FLog <$> post) ++ [FSet (Some real)])
      (CFutureLogger_new, s)
    = Ok ({| m_pLogger := Some real; m_aPending := {| data := []; capacity := 0 |} |},
          (s.1 ++ (EvLog real <$> post), foldl (λ w m, Log (deref real) m w) s.2 post))
  ∧ run_each future_call ((FLog <$> m :: pre) ++ [FSet None]) (CFutureLogger_new, s)
    = Undefined.
Proof.
  assert (Hnull : CFutureLogger_Set None (CFutureLogger_new, s) = Ok (CFutureLogger_new, s)).
  { unfold CFutureLogger_Set, compare_exchange_strong, CFutureLogger_new. cbn [m_pLogger m_aPending].
    by rewrite bool_decide_eq_true_2. }
  split; [done|]. split.
  - cbn [app run_each future_call]. rewrite Hnull, bind_Ok.
    destruct (future_buffers post CFutureLogger_new s eq_refl) as (v & Hbuf & Hv).
    simpl in Hv. rewrite run_each_app, Hbuf, bind_Ok. cbn [run_each future_call].
    by rewrite CFutureLogger_Set_first, !bind_Ok, Hv, foldl_call_Log.
  - destruct (future_buffers (m :: pre) CFutureLogger_new s eq_refl) as (v & Hbuf & Hv).
    simpl in Hv. rewrite run_each_app, Hbuf, bind_Ok. cbn [run_each future_call].
    unfold CFutureLogger_Set, compare_exchange_strong. cbn [m_pLogger m_aPending].
    rewrite bool_decide_eq_true_2 by done. cbn [negb]. rewrite bind_Ok, Hv. done.
Qed.

(** X11. A collection does not look at its children: a child registered
    [n] times is handed every record [n] times, a sink that is not among
    the children is handed nothing, and an empty collection calls
    nothing. *)
Theorem collection_multiplicity `{Objects W} (loggers : list ptr) (m : CLogMessage)
    (w : W) (p : ptr) :
  logged_to p (CLoggerCollection_Log (log_logger_collection loggers) m ([], w)).1
  = replicate (length (filter (λ q, q = p) loggers)) m
  ∧ (p ∉ loggers →
     logged_to p (CLoggerCollection_Log (log_logger_collection loggers) m ([], w)).1 = [])
  ∧ CLoggerCollection_Log (log_logger_collection []) m ([], w) = ([], w).
Proof.
  assert (Hcount : logged_to p (CLoggerCollection_Log (log_logger_collection loggers) m ([], w)).1
                   = replicate (length (filter (λ q, q = p) loggers)) m).
  { rewrite CLoggerCollection_Log_calls. cbn [fst app]. unfold logged_to.
    induction loggers as [|q loggers IH]; [done|].
    cbn [fmap list_fmap omap list_omap]. rewrite filter_cons.
    case_bool_decide as Hq; destruct (decide (q = p)); try done.
    cbn [length replicate]. by rewrite IH. }
  split; [done|]. split; [|done].
  intros Hnot. rewrite Hcount.
  replace (filter (λ q, q = p) loggers) with (@nil ptr); [done|].
  clear Hcount. induction loggers as [|q loggers IH]; [done|].
  apply not_elem_of_cons in Hnot as [Hne Hnot].
  rewrite filter_cons. destruct (decide (q = p)); [congruence|]. by apply IH.
Qed.

(** * Further properties of the threads sharing a sink *)

(** X12. Lines are never torn: in every state that any interleaving of the
    threads and the worker reaches, the bytes written and queued are, after
    the file's initial contents, whole rendered lines, one per [Log] call
    that returned and in the order the calls returned, followed by the
    bytes of the one line being queued by the thread inside the lock, if
    there is one; every other thread is outside any [Log] or at its very
    start. *)
Theorem lines_never_torn jk this file work sched M :
  exec jk this sched (boot file work) = Some M →
  aio_stream (aio M) ++ aio_queue (aio M)
  = file ++ concat (rendered this <$> logs (returned M)) ++ partial_line jk this M
  ∧ (aio_holder (aio M) = None → partial_line jk this M = [])
  ∧ (∀ t pc m ws, clients M !! t = Some (pc, DoLog m :: ws) →
       aio_holder (aio M) ≠ Some t → pc = 0)
  ∧ (∀ t, aio_holder (aio M) = Some t →
       ∃ pc m ws, clients M !! t = Some (pc, DoLog m :: ws) ∧ 0 < pc).
Proof.
  intros Hexec.
  destruct (exec_consistent jk this file work sched _ M (boot_consistent jk this file work) Hexec)
    as (_ & Hbytes & Hidle & Hhold).
  split; [done|]. split; [apply partial_line_free|]. split; [done|].
  intros t Hh. destruct (Hhold t Hh) as (pc & m & ws & cs & Hcl & _ & Hpc & _).
  by exists pc, m, ws.
Qed.

Lemma lines_never_torn_witness :
  ∃ M, exec sample_junk (log_logger_stdout false) sample_schedule (boot [] sample_work) = Some M
    ∧ aio_stream (aio M) ++ aio_queue (aio M)
      = [] ++ concat (rendered (log_logger_stdout false) <$> logs (returned M))
        ++ partial_line sample_junk (log_logger_stdout false) M.
Proof.
  assert (∃ M, exec sample_junk (log_logger_stdout false) sample_schedule
                 (boot [] sample_work) = Some M) as (M & E).
  { eexists. vm_compute. reflexivity. }
  exists M. split; [exact E|].
  apply (lines_never_torn sample_junk (log_logger_stdout false) [] sample_work
           sample_schedule M E).
Defined.

(** X13. A completed run: once every thread has returned from all the
    calls it was given and the queue is empty, the lock is free and the
    stream holds the file's initial contents followed by exactly the lines
    of the [Log] calls, in the order they returned; and the calls each
    thread returned from are the calls it was given, in its order. *)
Theorem completed_run jk this file work sched M :
  exec jk this sched (boot file work) = Some M →
  (∀ t ws, work !! t = Some ws → todo M t = []) →
  aio_queue (aio M) = [] →
  aio_holder (aio M) = None
  ∧ aio_stream (aio M) = file ++ concat (rendered this <$> logs (returned M))
  ∧ ∀ t, by_thread t (returned M) = default [] (work !! t).
Proof.
  intros Hexec Hdone Hq.
  destruct (exec_consistent jk this file work sched _ M (boot_consistent jk this file work) Hexec)
    as (Hacc & Hbytes & Hidle & Hhold).
  assert (Hall : ∀ t, todo M t = []).
  { intros t. destruct (work !! t) as [ws|] eqn:Hw; [by apply (Hdone t ws)|].
    pose proof (Hacc t) as Ht. rewrite Hw in Ht. cbn in Ht.
    by apply app_eq_nil in Ht as [_ ?]. }
  assert (Hfree : aio_holder (aio M) = None).
  { destruct (aio_holder (aio M)) as [t|] eqn:Hh; [|done].
    destruct (Hhold t eq_refl) as (pc & m & ws & cs & Hcl & _).
    specialize (Hall t). unfold todo in Hall. by rewrite Hcl in Hall. }
  split; [done|]. split.
  - by rewrite Hq, partial_line_free, !app_nil_r in Hbytes.
  - intros t. rewrite <- (Hacc t), (Hall t). by rewrite app_nil_r.
Qed.

Lemma completed_run_witness :
  ∃ M, exec sample_junk (log_logger_stdout false) (sample_schedule ++ [Run 1])
         (boot [] sample_work) = Some M
    ∧ aio_stream (aio M)
      = [] ++ concat (rendered (log_logger_stdout false) <$> logs (returned M)).
Proof.
  assert (∃ M, exec sample_junk (log_logger_stdout false) (sample_schedule ++ [Run 1])
                 (boot [] sample_work) = Some M
               ∧ todo M 1 = [] ∧ todo M 2 = [] ∧ aio_queue (aio M) = [])
    as (M & E & H1 & H2 & Hq).
  { eexists. split; [vm_compute; reflexivity|].
    split; [vm_compute; reflexivity|]. split; vm_compute; reflexivity. }
  exists M. split; [exact E|].
  apply (completed_run sample_junk (log_logger_stdout false) [] sample_work
           (sample_schedule ++ [Run 1]) M E); [|exact Hq].
  intros t ws Hw. unfold sample_work in Hw.
  destruct (decide (t = 1)) as [->|Hn1]; [exact H1|].
  destruct (decide (t = 2)) as [->|Hn2]; [exact H2|].
  rewrite lookup_insert_ne in Hw by congruence.
  rewrite lookup_singleton_ne in Hw by congruence. discriminate.
Defined.

(** * The Windows console palette *)

(** X14. The console attribute chosen for a colour is always one of the
    bright or grey foreground colours 5 to 15, never black: with saturation
    0 to 10 it is grey (8) up to value 150 and white (15) above, whatever
    the hue; otherwise it is one of eight hues, red (12) at both ends of the
    hue circle, and white only for a negative hue. *)
Theorem windows_console_color_range (h s v : Z) :
  let attribute := color_hsv_to_windows_console_color h s v in
  (5 ≤ attribute ≤ 15)%Z
  ∧ ((0 ≤ s ≤ 10)%Z → attribute = if bool_decide (v ≤ 150)%Z then 8%Z else 15%Z)
  ∧ (¬ (0 ≤ s ≤ 10)%Z → (0 ≤ h)%Z →
     attribute ∈ [12; 6; 14; 10; 11; 9; 5; 13]%Z
     ∧ ((h < 15 ∨ 240 ≤ h)%Z → attribute = 12%Z))
  ∧ (¬ (0 ≤ s ≤ 10)%Z → (h < 0)%Z → attribute = 15%Z).
Proof.
  cbv zeta. rewrite !elem_of_cons, elem_of_nil.
  unfold color_hsv_to_windows_console_color.
  repeat case_bool_decide; lia.
Qed.

(** * Sequences of calls of the entry point *)

(** X15. Records reach the sink in the order of the calls: a run of calls
    on one thread, outside any other call and with a sink to resolve to,
    hands that sink one record per call, in order, and nothing else; the
    thread resolves to the same sink at the end. *)
Theorem log_calls_in_order `{Build} `{Backends} fuel (t : tid) (p : ptr)
    (cs : list LogCall) (Msgs : list CLogMessage) (st : State) :
  in_logger (tls st t) = false →
  effective_sink t st = Some p →
  Forall2 (λ c Msg, build_message c = Ok Msg) cs Msgs →
  ∃ st', run_each (log_log_impl (S fuel) t) cs st = Ok st'
    ∧ events st' = events st ++ (EvLog p <$> Msgs)
    ∧ effective_sink t st' = Some p
    ∧ in_logger (tls st' t) = false.
Proof.
  intros Hin Heff Hall. revert st Hin Heff.
  induction Hall as [|c Msg cs Msgs HMsg Hall IH]; intros st Hin Heff.
  - exists st. cbn. by rewrite app_nil_r.
  - destruct (log_log_impl_delivers fuel t c st p Msg Hin Heff HMsg)
      as (st1 & E & Hev & _ & _ & Ht & _).
    destruct (IH st1) as (st' & E' & Hev' & Heff' & Hin').
    { by rewrite Ht. }
    { unfold effective_sink. by rewrite Ht. }
    exists st'. cbn [run_each]. rewrite E, bind_Ok. split; [done|].
    rewrite Hev', Hev, <- app_assoc. done.
Qed.

Lemma log_calls_in_order_witness :
  ∃ Msg1 Msg2 st',
    run_each (@log_log_impl build_small chatty 1 0)
      [sample_call "test" "hello"; sample_call "console" "hello, world!"] published = Ok st'
    ∧ events st' = [EvLog 7 Msg1; EvLog 7 Msg2]
    ∧ Message Msg1 = bytes "hello" ∧ Message Msg2 = bytes "hello, wor".
Proof.
  assert (∃ Msg1, @build_message build_small (sample_call "test" "hello") = Ok Msg1
                  ∧ Message Msg1 = bytes "hello") as (Msg1 & H1 & HM1).
  { eexists. split; vm_compute; reflexivity. }
  assert (∃ Msg2, @build_message build_small (sample_call "console" "hello, world!") = Ok Msg2
                  ∧ Message Msg2 = bytes "hello, wor") as (Msg2 & H2 & HM2).
  { eexists. split; vm_compute; reflexivity. }
  destruct (@log_calls_in_order build_small chatty 0 0 7
              [sample_call "test" "hello"; sample_call "console" "hello, world!"]
              [Msg1; Msg2] published) as (st' & E & Hev & _);
    [reflexivity|reflexivity|by repeat constructor|].
  exists Msg1, Msg2, st'. auto.
Defined.

(** X16. Lines logged before a logger is published are lost, not kept for
    later: the call returns with nothing recorded anywhere; and the thread
    is not stuck with the missing logger, its first call after
    [log_set_global_logger] reaches the published logger. *)
Theorem early_lines_are_lost `{Build} `{Backends} fuel (t : tid) (c1 c2 : LogCall)
    (p : ptr) (Msg2 : CLogMessage) (st : State) :
  global_logger st = None →
  scope_logger (tls st t) = None →
  in_logger (tls st t) = false →
  build_message c2 = Ok Msg2 →
  ∃ st1 st2 st3,
    log_log_impl (S fuel) t c1 st = Ok st1
    ∧ events st1 = events st
    ∧ log_set_global_logger (Some p) st1 = Ok st2
    ∧ log_log_impl (S fuel) t c2 st2 = Ok st3
    ∧ events st3 = events st ++ [EvLog p Msg2].
Proof.
  intros Hg Hsc Hin HMsg.
  destruct (log_log_impl_no_sink fuel t c1 st) as (st1 & E1 & Hg1 & Ht1 & _ & He1); [done| |].
  { unfold effective_sink. by rewrite Hsc. }
  exists st1. rewrite log_set_global_logger_first by congruence.
  set (st2 := atexit _ _).
  assert (Ht2 : tls st2 t = tls st t) by (by rewrite <- Ht1).
  destruct (log_log_impl_delivers fuel t c2 st2 p Msg2) as (st3 & E3 & He3 & _); try done.
  { by rewrite Ht2. }
  { unfold effective_sink. by rewrite Ht2, Hsc. }
  exists st2, st3. repeat split; try done.
  rewrite He3. subst st2. cbn. by rewrite He1.
Qed.

Lemma early_lines_are_lost_witness :
  ∃ st1 st2 st3,
    @log_log_impl build_small quiet 1 0 (sample_call "test" "early") initial = Ok st1
    ∧ events st1 = []
    ∧ log_set_global_logger (Some 7) st1 = Ok st2
    ∧ @log_log_impl build_small quiet 1 0 (sample_call "test" "hello") st2 = Ok st3
    ∧ events st3 = [EvLog 7 sample_record].
Proof.
  apply (@early_lines_are_lost build_small quiet 0 0 (sample_call "test" "early")
           (sample_call "test" "hello") 7 sample_record initial);
    reflexivity.
Defined.

(** * Truncation, on either platform *)

(** X17. On a Windows build the record can be built exactly when the
    message is shorter than what is left of the line array after the
    prefix; from that length on, [m_aLine] is left without a terminator and
    measuring the line reads past its end. *)
Theorem windows_overrun_threshold (tsz ssz lsz : nat) (c : LogCall) :
  let windows := {| CONF_FAMILY_WINDOWS := true; TIMESTAMP_SIZE := tsz;
                    SYSTEM_SIZE := ssz; LINE_SIZE := lsz |} in
  let room := lsz - length (take (lsz - 1)
                              (bytes "[" ++ take (tsz - 1) (clock c) ++ bytes "][" ++
                               take (ssz - 1) (sys c) ++ bytes "]: ")) in
  0 < tsz → 0 < ssz → 0 < lsz →
  no_nul (clock c) → no_nul (sys c) → no_nul (fmt_args c) →
  (length (fmt_args c) < room →
     ∃ Msg, @build_message windows c = Ok Msg ∧ Message Msg = fmt_args c)
  ∧ (room ≤ length (fmt_args c) → @build_message windows c = Undefined).
Proof.
  intros windows room Hts Hsys Hline Hclock Htag Htext. split.
  - intros Hfit.
    pose proof (build_message_same_when_fits tsz ssz lsz c Hts Hsys Hline Hclock Htag Hfit)
      as Esame.
    cbv zeta in Esame. unfold windows. rewrite Esame.
    set (other := {| CONF_FAMILY_WINDOWS := false; TIMESTAMP_SIZE := tsz;
                     SYSTEM_SIZE := ssz; LINE_SIZE := lsz |}).
    destruct (@build_message_posix other c) as (Msg & HMsg & Hrest); try done.
    exists Msg. split; [done|].
    destruct Hrest as (_ & _ & _ & _ & _ & _ & _ & _ & _ & _ & _ & _ & ->).
    cbn [LINE_SIZE TIMESTAMP_SIZE SYSTEM_SIZE other]. apply take_ge.
    subst room. lia.
  - intros Hlong. apply (@build_message_windows_overrun windows c); try done.
Qed.

Lemma windows_overrun_threshold_witness :
  (∃ Msg, @build_message build_windows (sample_call "test" "hello") = Ok Msg
          ∧ Message Msg = bytes "hello")
  ∧ @build_message build_windows long_call = Undefined.
Proof.
  split.
  - apply (proj1 (windows_overrun_threshold 80 32 4096 (sample_call "test" "hello")
                    ltac:(lia) ltac:(lia) ltac:(lia)
                    ltac:(unfold no_nul; by apply (bool_decide_unpack _))
                    ltac:(unfold no_nul; by apply (bool_decide_unpack _))
                    ltac:(unfold no_nul; by apply (bool_decide_unpack _)))).
    cbn. lia.
  - apply (proj2 (windows_overrun_threshold 80 32 4096 long_call
                    ltac:(lia) ltac:(lia) ltac:(lia)
                    ltac:(unfold no_nul; by apply (bool_decide_unpack _))
                    ltac:(unfold no_nul; by apply (bool_decide_unpack _))
                    ltac:(unfold no_nul; apply (bool_decide_unpack _); by vm_compute))).
    apply (bool_decide_unpack _). by vm_compute.
Defined.

(** The terminator sits where the recorded length says. *)
Lemma c_str_lookup buf s : c_str buf = Some s → buf !! length s = Some NUL.
Proof.
  intros Hs. destruct (c_str_Some buf s Hs) as (_ & rest & ->).
  by rewrite lookup_app_r, Nat.sub_diag by lia.
Qed.

(** X18. Truncation off Windows: an over-long tag is cut to the tag array
    and an over-long message to what is left of the line array; the record
    is handed to the sink all the same, its line array full-sized and
    terminated at the recorded length, which stays inside the array; and
    the next call builds the record it would have built on its own. *)
Theorem truncation_off_windows `{B : Build} `{Backends} fuel (t : tid) (p : ptr)
    (c1 c2 : LogCall) (st : State) :
  well_sized B → CONF_FAMILY_WINDOWS = false →
  no_nul (clock c1) → no_nul (sys c1) → no_nul (fmt_args c1) →
  no_nul (clock c2) → no_nul (sys c2) → no_nul (fmt_args c2) →
  in_logger (tls st t) = false → effective_sink t st = Some p →
  ∃ Msg1 Msg2 st',
    run_each (log_log_impl (S fuel) t) [c1; c2] st = Ok st'
    ∧ events st' = events st ++ [EvLog p Msg1; EvLog p Msg2]
    ∧ build_message c2 = Ok Msg2
    ∧ c_str (m_aSystem Msg1) = Some (take (SYSTEM_SIZE - 1) (sys c1))
    ∧ Message Msg1 = take (LINE_SIZE - 1 - m_LineMessageOffset Msg1) (fmt_args c1)
    ∧ length (m_aLine Msg1) = LINE_SIZE
    ∧ m_LineMessageOffset Msg1 ≤ m_LineLength Msg1 < LINE_SIZE
    ∧ m_aLine Msg1 !! m_LineLength Msg1 = Some NUL.
Proof.
  intros Hsized Hwin Hc1 Hs1 Ht1 Hc2 Hs2 Ht2 Hin Heff.
  destruct (build_message_posix c1 Hsized Hwin Hc1 Hs1 Ht1)
    as (Msg1 & HMsg1 & _ & _ & _ & _ & Htag & _ & Hlen & Hstr & Hoff & Hll & Hlt & _ & Hbody).
  destruct (build_message_posix c2 Hsized Hwin Hc2 Hs2 Ht2) as (Msg2 & HMsg2 & _).
  destruct (log_log_impl_delivers fuel t c1 st p Msg1 Hin Heff HMsg1)
    as (st1 & E1 & Hev1 & _ & _ & Htls1 & _).
  destruct (log_log_impl_delivers fuel t c2 st1 p Msg2) as (st2 & E2 & Hev2 & _); try done.
  { by rewrite Htls1. }
  { unfold effective_sink. by rewrite Htls1. }
  exists Msg1, Msg2, st2. cbn [run_each]. rewrite E1, bind_Ok, E2, bind_Ok.
  split; [done|]. split; [by rewrite Hev2, Hev1, <- app_assoc|]. split; [done|].
  split; [done|]. split; [by rewrite Hoff|]. split; [done|]. split.
  - rewrite Hll, Hoff, length_app in *. lia.
  - rewrite Hll. by apply c_str_lookup.
Qed.

Lemma truncation_off_windows_witness :
  ∃ Msg1 Msg2 st',
    run_each (@log_log_impl build_small quiet 1 0)
      [sample_call "console" "hello, world!"; sample_call "test" "hello"] published = Ok st'
    ∧ events st' = [EvLog 7 Msg1; EvLog 7 Msg2]
    ∧ Msg2 = sample_record
    ∧ m_LineLength Msg1 < 40.
Proof.
  assert (Hn : ∀ s, (x00 ∉ bytes s) → no_nul (bytes s)) by done.
  destruct (@truncation_off_windows build_small quiet 0 0 7
              (sample_call "console" "hello, world!") (sample_call "test" "hello") published)
    as (Msg1 & Msg2 & st' & E & Hev & HMsg2 & _ & _ & _ & [_ Hlt] & _);
    try reflexivity; try (apply Hn; by apply (bool_decide_unpack _)).
  { unfold well_sized. cbn. lia. }
  exists Msg1, Msg2, st'. repeat split; try done.
  assert (E2 : @build_message build_small (sample_call "test" "hello") = Ok sample_record)
    by (vm_compute; reflexivity).
  congruence.
Defined.
